(** * easyply: rule coercions, optional-term expansion and wrappers

    A shallow embedding of [easyply/__init__.py] together with the parts of
    the rule model ([easyply.nodes]) and of the rule parser
    ([easyply.parser]) that it calls.  [__init__.py] is translated from its
    source; the two sibling modules are described by the specification only
    and every definition taken from there says so. *)

From Stdlib Require Import Ascii.
From stdpp Require Import base decidable option list strings gmap pretty.

(** ** The rule model ([easyply.nodes]) *)

Module Nodes.

(** A term of a rule: a bare symbol, a symbol bound to a parameter name, or
    an optional group of terms.  [NamedTerm] is a subclass of [Term] in the
    Python code; [isinstance (term, NamedTerm)] is a match on the
    constructor here. *)
Local Unset Elimination Schemes.
Inductive term : Type :=
  | Term (symbol : string)
  | NamedTerm (name symbol : string)
  | OptionalGroup (terms : list term).
Local Set Elimination Schemes.

(** One production: a left-hand side and its ordered terms. *)
Record Rule : Type := mkRule { lhs : string; terms : list term }.

(** The recursor that reaches inside the groups. *)
Definition term_rect' (P : term → Type) (Q : list term → Type)
    (HT : ∀ s, P (Term s)) (HN : ∀ n s, P (NamedTerm n s))
    (HG : ∀ g, Q g → P (OptionalGroup g))
    (Hnil : Q []) (Hcons : ∀ t l, P t → Q l → Q (t :: l)) : ∀ t, P t :=
  fix go (t : term) : P t :=
    match t with
    | Term s => HT s
    | NamedTerm n s => HN n s
    | OptionalGroup g =>
        HG g ((fix gol (l : list term) : Q l :=
                 match l with
                 | [] => Hnil
                 | t' :: l' => Hcons t' l' (go t') (gol l')
                 end) g)
    end.

Global Instance term_eq_dec : EqDecision term.
Proof.
  refine (term_rect' (λ x, ∀ y, Decision (x = y))
            (λ l, ∀ k, Decision (l = k)) _ _ _ _ _).
  - intros s [s'| |]; [|right; congruence..].
    destruct (decide (s = s')); [left|right]; congruence.
  - intros n s [|n' s'|]; [right; congruence| |right; congruence].
    destruct (decide (n = n')); [|right; congruence].
    destruct (decide (s = s')); [left|right]; congruence.
  - intros g IH [| |g']; [right; congruence..|].
    destruct (IH g'); [left|right]; congruence.
  - intros [|]; [left|right]; congruence.
  - intros t l IHt IHl [|t' l']; [right; congruence|].
    destruct (IHt t'); [|right; congruence].
    destruct (IHl l'); [left|right]; congruence.
Defined.

Global Instance Rule_eq_dec : EqDecision Rule.
Proof. solve_decision. Defined.

(** A term is flat when it is not a group; a flattened rule has flat terms
    only. *)
Definition is_group (t : term) : bool :=
  match t with OptionalGroup _ => true | _ => false end.

Definition flat_terms (ts : list term) : bool :=
  forallb (λ t, negb (is_group t)) ts.

Definition is_flat (r : Rule) : bool := flat_terms (terms r).

(** [x] is a term of the sequence, at its top or inside its groups. *)
Inductive occurs_in (x : term) : list term → Prop :=
  | occurs_here l : x ∈ l → occurs_in x l
  | occurs_inside g l : OptionalGroup g ∈ l → occurs_in x g → occurs_in x l.

(** Modelled from the spec: [Rule.flatten] of [easyply.nodes], which is not
    among the sources.  Section 4.3: a group that is still there is
    resolved by concatenating its inner terms in place; the relative order
    of the terms is kept and a [NamedTerm] is copied as it is. *)
Fixpoint flatten_term (t : term) : list term :=
  match t with
  | OptionalGroup g => flat_map flatten_term g
  | _ => [t]
  end.

Definition flatten_terms (ts : list term) : list term :=
  flat_map flatten_term ts.

Definition flatten (r : Rule) : Rule :=
  mkRule (lhs r) (flatten_terms (terms r)).

(** Modelled from the spec: [Rule.expand_optionals] of [easyply.nodes],
    which is not among the sources.  Section 4.2: every group is a binary
    choice; with the group excluded nothing is spliced in at its place,
    with the group included each resolution of its inner sequence is
    spliced in; either is combined with every expansion of the remainder.
    The excluded choice is listed first. *)
Definition splice (xs ys : list (list term)) : list (list term) :=
  x ← xs; y ← ys; [x ++ y].

Fixpoint expand_term (t : term) : list (list term) :=
  match t with
  | OptionalGroup g =>
      [] :: foldr (λ t' acc, splice (expand_term t') acc) [[]] g
  | _ => [[t]]
  end.

Definition expand_terms (ts : list term) : list (list term) :=
  foldr (λ t acc, splice (expand_term t) acc) [[]] ts.

Definition Rule_expand_optionals (r : Rule) : list Rule :=
  mkRule (lhs r) <$> expand_terms (terms r).

(** Modelled from the spec: [Rule.format] of [easyply.nodes], which is not
    among the sources.  Section 4.4: the line [lhs : symbol1 symbol2 ...]
    built from the symbols of the terms; the name of a [NamedTerm] is left
    out in [pure_ply] mode and kept, in the notation of the rule text,
    otherwise.  The spec fixes the line for flattened rules; a group that
    is still there is written in the notation of the rule text. *)
Fixpoint join (sep : string) (ws : list string) : string :=
  match ws with
  | [] => ""
  | [w] => w
  | w :: ws' => w +:+ sep +:+ join sep ws'
  end.

Fixpoint term_text (pure_ply : bool) (t : term) : string :=
  match t with
  | Term s => s
  | NamedTerm n s => if pure_ply then s else n +:+ "=" +:+ s
  | OptionalGroup g => "(" +:+ join " " (term_text pure_ply <$> g) +:+ ")?"
  end.

Definition format (r : Rule) (pure_ply : bool) : string :=
  lhs r +:+ " : " +:+ join " " (term_text pure_ply <$> terms r).

End Nodes.

Import Nodes.

(** ** Arguments, exceptions and results *)

(** A ruleset argument, as the module's notes list them: a Rule or a string,
    or a list (or tuple) of Rules and strings. *)
Inductive item : Type :=
  | ItemRule (r : Rule)
  | ItemStr (s : string).

Inductive ruleset_arg : Type :=
  | One (x : item)
  | Many (xs : list item).

Global Instance item_eq_dec : EqDecision item.
Proof. solve_decision. Defined.

Global Instance ruleset_arg_eq_dec : EqDecision ruleset_arg.
Proof. solve_decision. Defined.

(** The exceptions of the module, the parser's error, the [IndexError] of
    an access outside the parse stack and whatever a wrapped function
    raises. *)
Inductive exn : Type :=
  | ParseError (text : string)
  | SingleRuleExpectedError (arg : ruleset_arg)
  | NoDocstringError (msg : string)
  | IndexError
  | Raised (msg : string).

Inductive result (A : Type) : Type :=
  | Ok (a : A)
  | Raise (e : exn).
Global Arguments Ok {A} a.
Global Arguments Raise {A} e.

Global Instance result_ret : MRet result := λ A a, Ok a.
Global Instance result_bind : MBind result := λ A B f m,
  match m with Ok a => f a | Raise e => Raise e end.
Global Instance result_fmap : FMap result := λ A B f m,
  match m with Ok a => Ok (f a) | Raise e => Raise e end.

Definition raises {A} (m : result A) : Prop :=
  match m with Ok _ => False | Raise _ => True end.

(** ** The rule parser ([easyply.parser]) *)

Module Parser.

Inductive token : Type :=
  | TIdent (s : string)
  | TColon
  | TEq
  | TLParen
  | TRParen
  | TQuestion.

Global Instance token_eq_dec : EqDecision token.
Proof. solve_decision. Defined.

Definition punct (a : ascii) : option token :=
  match a with
  | ":" => Some TColon
  | "=" => Some TEq
  | "(" => Some TLParen
  | ")" => Some TRParen
  | "?" => Some TQuestion
  | _ => None
  end%char.

Definition flush (cur : string) : list token :=
  match cur with "" => [] | _ => [TIdent (String.rev cur)] end.

(** Modelled from the spec: the lexer of [easyply.parser], which is not
    among the sources.  Section 4.1 names the separator, the binding sign,
    the group delimiters and the optional marker; white space separates
    symbols, and any other run of characters is a name or a symbol. *)
Fixpoint tokenize_go (cur : string) (s : string) : list token :=
  match s with
  | "" => flush cur
  | String a s' =>
      if Ascii.is_space a then flush cur ++ tokenize_go "" s'
      else match punct a with
           | Some t => flush cur ++ t :: tokenize_go "" s'
           | None => tokenize_go (String a cur) s'
           end
  end.

Definition tokenize (s : string) : list token := tokenize_go "" s.

(** Modelled from the spec: the term grammar of section 4.1,
    [term := name "=" symbol | symbol | "(" term_seq ")" "?"].  [cur] holds
    the terms of the group being read, last first, and [stack] those of the
    enclosing groups.  A bare symbol is bound to its own name, as the spec
    has the parser do by default. *)
Fixpoint parse_terms (toks : list token) (cur : list term)
    (stack : list (list term)) : option (list term) :=
  match toks with
  | [] => match stack with [] => Some (rev cur) | _ :: _ => None end
  | TLParen :: rest => parse_terms rest [] (cur :: stack)
  | TRParen :: TQuestion :: rest =>
      match stack with
      | [] => None
      | parent :: stack' =>
          parse_terms rest (OptionalGroup (rev cur) :: parent) stack'
      end
  | TIdent n :: TEq :: TIdent s :: rest =>
      parse_terms rest (NamedTerm n s :: cur) stack
  | TIdent s :: rest =>
      match rest with
      | TEq :: _ => None
      | _ => parse_terms rest (NamedTerm s s :: cur) stack
      end
  | _ => None
  end.

(** Modelled from the spec: [rule := lhs ":" term_seq]. *)
Definition parse_rule (toks : list token) : option Rule :=
  match toks with
  | TIdent l :: TColon :: rest => mkRule l <$> parse_terms rest [] []
  | _ => None
  end.

(** The lines of a text, split at the newline character. *)
Fixpoint lines_go (cur : string) (s : string) : list string :=
  match s with
  | "" => [String.rev cur]
  | String a s' =>
      if decide (a = "010"%char) then String.rev cur :: lines_go "" s'
      else lines_go (String a cur) s'
  end.

Definition lines (s : string) : list string := lines_go "" s.

Definition parse_line (line : string) : result (list Rule) :=
  match tokenize line with
  | [] => Ok []
  | toks =>
      match parse_rule toks with
      | Some r => Ok [r]
      | None => Raise (ParseError line)
      end
  end.

(** Modelled from the spec: [parse] of [easyply.parser], which is not among
    the sources.  Section 4.1: the rules of the lines of the text in their
    order; a line that is not a rule fails the whole call with an error
    that carries the line. *)
Definition parse (text : string) : result (list Rule) :=
  rss ← mapM parse_line (lines text); mret (concat rss).

(** The three ways in which the spec has a line malformed, on its tokens:
    the groups are not nested properly, a group is closed without its
    optional marker, the line does not begin with [lhs ":"]. *)
Fixpoint balanced_go (depth : nat) (toks : list token) : bool :=
  match toks with
  | [] => Nat.eqb depth 0
  | TLParen :: rest => balanced_go (S depth) rest
  | TRParen :: rest =>
      match depth with
      | 0 => false
      | S depth' => balanced_go depth' rest
      end
  | _ :: rest => balanced_go depth rest
  end.

Definition balanced (toks : list token) : bool := balanced_go 0 toks.

Fixpoint markers_terminated (toks : list token) : bool :=
  match toks with
  | [] => true
  | TRParen :: rest =>
      match rest with
      | TQuestion :: _ => markers_terminated rest
      | _ => false
      end
  | _ :: rest => markers_terminated rest
  end.

Definition has_separator (toks : list token) : bool :=
  match toks with
  | TIdent _ :: TColon :: _ => true
  | _ => false
  end.

End Parser.

(** ** [easyply/__init__.py] *)

(** [str.strip ()] of Python 3.  A character of a string stands for the
    code point of its number, 0 to 255; among these [str.isspace] holds of
    9 to 13, 28 to 31, the blank, 133 (U+0085) and 160 (U+00A0).  Code
    points above 255 have no character here. *)
Definition is_whitespace (a : ascii) : bool :=
  match a with
  | "009" | "010" | "011" | "012" | "013"
  | "028" | "029" | "030" | "031" | " "
  | "133" | "160" => true
  | _ => false
  end%char.

Fixpoint lstrip (s : string) : string :=
  match s with
  | "" => ""
  | String a s' => if is_whitespace a then lstrip s' else s
  end.

Fixpoint rstrip (s : string) : string :=
  match s with
  | "" => ""
  | String a s' =>
      match rstrip s' with
      | "" => if is_whitespace a then "" else String a ""
      | r => String a r
      end
  end.

Definition strip (s : string) : string := rstrip (lstrip s).

Fixpoint all_whitespace (s : string) : bool :=
  match s with
  | "" => true
  | String a s' => is_whitespace a && all_whitespace s'
  end.

(** White space at the ends of a string. *)
Definition starts_with_whitespace (s : string) : bool :=
  match s with
  | "" => false
  | String a _ => is_whitespace a
  end.

Fixpoint ends_with_whitespace (s : string) : bool :=
  match s with
  | "" => false
  | String a "" => is_whitespace a
  | String _ s' => ends_with_whitespace s'
  end.

(** What [expand_optionals] returns per resolution: a string when [format]
    is true, a flattened Rule otherwise. *)
Inductive expansion : Type :=
  | Formatted (s : string)
  | Flattened (r : Rule).

Global Instance expansion_eq_dec : EqDecision expansion.
Proof. solve_decision. Defined.

(** The wrapper that [create_wrapper] returns: a callable on the parse
    stack, with a docstring. *)
Record wrapped (V : Type) : Type := mkWrapped {
  call : list V → result (list V);
  doc : string
}.
Global Arguments mkWrapped {V} call doc.
Global Arguments call {V} w p.
Global Arguments doc {V} w.

(** The parameter names of a term sequence, in its order. *)
Definition names (ts : list term) : list string :=
  omap (λ t, match t with NamedTerm n _ => Some n | _ => None end) ts.

(** The entry that [process_rule] computes for one resolution of a rule,
    before the repetitions are removed. *)
Definition resolution (format pure_ply : bool) (rule : Rule) : expansion :=
  if format then Formatted (Nodes.format (flatten rule) pure_ply)
  else Flattened (flatten rule).

(** The number of groups at the top of a sequence, and whether these are
    all its groups: no group lies inside another one. *)
Definition top_level_groups (ts : list term) : nat :=
  length (filter (λ t, is_group t = true) ts).

Definition groups_flat (ts : list term) : bool :=
  forallb (λ t, match t with
                | OptionalGroup g => flat_terms g
                | _ => true
                end) ts.

(** A word: a string that is not empty and has no blank. *)
Fixpoint no_blank (s : string) : bool :=
  match s with
  | "" => true
  | String a s' => negb (Ascii.eqb a " ") && no_blank s'
  end.

Definition is_word (s : string) : bool :=
  match s with
  | "" => false
  | _ => no_blank s
  end.

Definition groups_nonempty (ts : list term) : bool :=
  forallb (λ t, match t with OptionalGroup [] => false | _ => true end) ts.

(** [if not isinstance (ruleset, (list, tuple)): ruleset = (ruleset, )] *)
Definition as_sequence (ruleset : ruleset_arg) : list item :=
  match ruleset with
  | One x => [x]
  | Many xs => xs
  end.

Section Easyply.

(** [parser.parse], imported as [_parse]. *)
Variable _parse : string → result (list Rule).

(** The values on the parse stack. *)
Context {V : Type}.

Definition coerce_to_rule (rule : item) : result (list Rule) :=
  match rule with
  | ItemStr s => _parse s
  | ItemRule r => Ok [r]
  end.

Definition _coerce_to_ruleset (ruleset : ruleset_arg) : result (list Rule) :=
  let ruleset := as_sequence ruleset in
  rss ← mapM coerce_to_rule ruleset; mret (concat rss).

Definition _coerce_to_single_rule (rule : ruleset_arg) : result Rule :=
  ruleset ← _coerce_to_ruleset rule;
  if decide (length ruleset ≠ 1) then Raise (SingleRuleExpectedError rule)
  else match ruleset !! 0 with
       | Some r => Ok r
       | None => Raise IndexError
       end.

(** [list (set (...))]: the entries without their repetitions.  Python
    fixes no order for them; [remove_dups] keeps the last occurrence of
    each, and the statements below do not depend on the order.  Strings
    are compared by their characters and, following the spec, Rules by
    their structure. *)
Definition process_rule (format pure_ply : bool) (rule : Rule)
    : list expansion :=
  let rules := Rule_expand_optionals rule in
  if format then
    remove_dups ((λ rule, Formatted (Nodes.format (flatten rule) pure_ply))
                   <$> rules)
  else
    remove_dups ((λ rule, Flattened (flatten rule)) <$> rules).

Definition expand_optionals (ruleset : ruleset_arg)
    (format pure_ply : bool) : result (list expansion) :=
  ruleset ← _coerce_to_ruleset ruleset;
  mret (concat (process_rule format pure_ply <$> ruleset)).

(** The loop of [wrapper]: [kwargs[term.name] = p[i + 1]] for the named
    terms, [i] counting all terms. *)
Fixpoint extract_kwargs (i : nat) (ts : list term) (p : list V)
    (kwargs : gmap string V) : result (gmap string V) :=
  match ts with
  | [] => Ok kwargs
  | NamedTerm name _ :: ts' =>
      match p !! (i + 1) with
      | Some v => extract_kwargs (S i) ts' p (<[name := v]> kwargs)
      | None => Raise IndexError
      end
  | _ :: ts' => extract_kwargs (S i) ts' p kwargs
  end.

(** [p[0] = v] *)
Definition set_slot0 (p : list V) (v : V) : result (list V) :=
  match p with
  | [] => Raise IndexError
  | _ :: _ => Ok (<[0 := v]> p)
  end.

Definition wrapper (rule : Rule) (func : gmap string V → result V)
    (p : list V) : result (list V) :=
  kwargs ← extract_kwargs 0 (terms rule) p ∅;
  v ← func kwargs;
  set_slot0 p v.

Definition create_wrapper (rule : ruleset_arg)
    (func : gmap string V → result V) : result (wrapped V) :=
  rule ← _coerce_to_single_rule rule;
  let rule := flatten rule in
  mret (mkWrapped (wrapper rule func) (Nodes.format rule true)).

Definition falsy (defn : option string) : bool :=
  match defn with
  | None | Some "" => true
  | Some _ => false
  end.

Definition parse (defn : option string) (fname : option string)
    : result (list Rule) :=
  if falsy defn then
    match fname with
    | Some f =>
        Raise (NoDocstringError ("Function " +:+ f +:+ " has no docstring"))
    | None => Raise (NoDocstringError "Provided function has no docstring")
    end
  else _parse (strip (default "" defn)).

End Easyply.

(** ** [process_function] and [get_rules] *)

(** A function as [process_function] uses it: its [__name__], its
    [__doc__] ([None] when it has no docstring) and what calling it with
    keyword arguments does. *)
Record pyfunc (V : Type) : Type := mkPyfunc {
  fn_name : string;
  fn_doc : option string;
  fn_call : gmap string V → result V
}.
Global Arguments mkPyfunc {V} fn_name fn_doc fn_call.
Global Arguments fn_name {V} p.
Global Arguments fn_doc {V} p.
Global Arguments fn_call {V} p kwargs.

(** ['p_%s_%s' % (func.__name__, i)] *)
Definition wrapper_name (fname : string) (i : nat) : string :=
  "p_" +:+ fname +:+ "_" +:+ pretty i.

(** An entry of [expand_optionals] given to [create_wrapper] as its rule:
    a Rule is taken as it is, a string would be parsed. *)
Definition expansion_arg (rule : expansion) : ruleset_arg :=
  match rule with
  | Flattened r => One (ItemRule r)
  | Formatted s => One (ItemStr s)
  end.

Section ProcessFunction.

Variable _parse : string → result (list Rule).
Context {V : Type}.

(** The loop of [process_function]:
    [ret['p_%s_%s' % (func.__name__, i)] = create_wrapper (rule, func)],
    [i] counting the rules from the value it has on entry. *)
Fixpoint install_wrappers (func : pyfunc V) (i : nat)
    (expanded : list expansion) (ret : gmap string (wrapped V))
    : result (gmap string (wrapped V)) :=
  match expanded with
  | [] => Ok ret
  | rule :: expanded' =>
      w ← create_wrapper _parse (expansion_arg rule) (fn_call func);
      install_wrappers func (S i) expanded'
        (<[wrapper_name (fn_name func) i := w]> ret)
  end.

Definition process_function (func : pyfunc V)
    : result (gmap string (wrapped V)) :=
  ruleset ← parse _parse (fn_doc func) (Some (fn_name func));
  expanded ← expand_optionals _parse (Many (ItemRule <$> ruleset)) false true;
  install_wrappers func 0 expanded ∅.

End ProcessFunction.

(** [[(k, v) for k, v in dictionary.items () if k.startswith (prefix)]];
    the pairs come in the order of [map_to_list]. *)
Definition get_rules {A} (dictionary : gmap string A) (prefix : string)
    : list (string * A) :=
  filter (λ kv, String.prefix prefix kv.1 = true) (map_to_list dictionary).

(** The wrapper that [create_wrapper] builds for a Rule. *)
Definition wrapper_of {V} (r : Rule) (func : gmap string V → result V)
    : wrapped V :=
  mkWrapped (wrapper (flatten r) func) (Nodes.format (flatten r) true).

(** ** Properties *)

(** *** The error monad and [mapM] *)

Lemma mapM_result_app {A B} (f : A → result B) (l k : list A) :
  mapM f (l ++ k) = (x ← mapM f l; y ← mapM f k; mret (x ++ y)).
Proof.
  induction l as [|a l IH]; simpl.
  - destruct (mapM f k); reflexivity.
  - destruct (f a) as [b|e]; simpl; [|reflexivity].
    rewrite IH. destruct (mapM f l); simpl; [|reflexivity].
    destruct (mapM f k); reflexivity.
Qed.

Lemma mapM_result_Ok {A B} (f : A → result B) (g : A → B) (l : list A) :
  (∀ x, x ∈ l → f x = Ok (g x)) → mapM f l = Ok (g <$> l).
Proof.
  induction l as [|a l IH]; intros Hf; simpl; [reflexivity|].
  rewrite (Hf a) by left. simpl.
  rewrite IH by (intros x Hx; apply Hf; by right). reflexivity.
Qed.

(** When some element fails, [mapM] fails with the error of the first
    element that does. *)
Lemma mapM_result_Raise {A B} (f : A → result B) (l : list A) (x : A) :
  x ∈ l → raises (f x) →
  ∃ y e, y ∈ l ∧ f y = Raise e ∧ mapM f l = Raise e.
Proof.
  induction l as [|a l IH]; intros Hx Hr; [by apply elem_of_nil in Hx|].
  simpl. destruct (f a) as [b|e] eqn:Ha.
  - apply elem_of_cons in Hx as [->|Hx]; [by rewrite Ha in Hr|].
    destruct (IH Hx Hr) as (y & e & Hy & Hfy & Hm).
    exists y, e. split; [by right|]. split; [done|].
    simpl. by rewrite Hm.
  - exists a, e. split; [by left|]. done.
Qed.

(** *** [str.strip] *)

Lemma app_nil_string (s : string) : "" +:+ s = s.
Proof. reflexivity. Qed.

Lemma app_cons_string (a : ascii) (s t : string) :
  String a s +:+ t = String a (s +:+ t).
Proof. reflexivity. Qed.

Lemma lstrip_split s :
  ∃ pre, s = pre +:+ lstrip s ∧ all_whitespace pre = true.
Proof.
  induction s as [|a s IH]; simpl.
  - by exists "".
  - destruct (is_whitespace a) eqn:Ha.
    + destruct IH as (pre & Hs & Hpre). exists (String a pre).
      rewrite app_cons_string, <- Hs. split; [done|]. simpl. by rewrite Ha.
    + by exists "".
Qed.

Lemma lstrip_start s : starts_with_whitespace (lstrip s) = false.
Proof.
  induction s as [|a s IH]; simpl; [done|].
  destruct (is_whitespace a) eqn:Ha; [done|]. simpl. done.
Qed.

Lemma rstrip_cons a s :
  is_whitespace a = false → rstrip (String a s) = String a (rstrip s).
Proof. intros Ha. simpl. destruct (rstrip s); by rewrite ?Ha. Qed.

Lemma rstrip_split s :
  ∃ post, s = rstrip s +:+ post ∧ all_whitespace post = true.
Proof.
  induction s as [|a s IH]; simpl.
  - by exists "".
  - destruct IH as (post & Hs & Hpost).
    destruct (rstrip s) as [|b r] eqn:Hr.
    + rewrite app_nil_string in Hs. subst post.
      destruct (is_whitespace a) eqn:Ha.
      * exists (String a s). split; [done|]. simpl. by rewrite Ha.
      * by exists s.
    + exists post. split; [|done]. rewrite app_cons_string. by f_equal.
Qed.

Lemma rstrip_end s : ends_with_whitespace (rstrip s) = false.
Proof.
  induction s as [|a s IH]; simpl; [done|].
  destruct (rstrip s) as [|b r] eqn:Hr.
  - destruct (is_whitespace a) eqn:Ha; simpl; by rewrite ?Ha.
  - exact IH.
Qed.

Lemma rstrip_start s :
  starts_with_whitespace s = false → starts_with_whitespace (rstrip s) = false.
Proof.
  destruct s as [|a s]; [done|]. intros Ha. simpl in Ha.
  by rewrite rstrip_cons.
Qed.

(** [strip] removes white space at both ends and nothing else. *)
Lemma strip_spec s :
  (∃ pre post, s = pre +:+ strip s +:+ post
     ∧ all_whitespace pre = true ∧ all_whitespace post = true)
  ∧ starts_with_whitespace (strip s) = false
  ∧ ends_with_whitespace (strip s) = false.
Proof.
  unfold strip. split; [|split].
  - destruct (lstrip_split s) as (pre & Hs & Hpre).
    destruct (rstrip_split (lstrip s)) as (post & Hl & Hpost).
    exists pre, post. split; [|done]. by rewrite <- Hl.
  - apply rstrip_start, lstrip_start.
  - apply rstrip_end.
Qed.

(** *** Flattening *)

(** Induction on a term with the hypothesis for all terms of a group. *)
Lemma term_ind' (P : term → Prop) :
  (∀ s, P (Term s)) →
  (∀ n s, P (NamedTerm n s)) →
  (∀ g, Forall P g → P (OptionalGroup g)) →
  ∀ t, P t.
Proof.
  intros HT HN HG.
  apply (term_rect' P (Forall P)); auto.
Qed.

Lemma flat_terms_app (l k : list term) :
  flat_terms (l ++ k) = flat_terms l && flat_terms k.
Proof. apply forallb_app. Qed.

Lemma flatten_terms_cons (t : term) (ts : list term) :
  flatten_terms (t :: ts) = flatten_term t ++ flatten_terms ts.
Proof. reflexivity. Qed.

Lemma flatten_terms_app (l k : list term) :
  flatten_terms (l ++ k) = flatten_terms l ++ flatten_terms k.
Proof. apply flat_map_app. Qed.

Lemma flatten_terms_flat (ts : list term) :
  flat_terms ts = true → flatten_terms ts = ts.
Proof.
  induction ts as [|t ts IH]; [done|].
  intros [Ht Hts]%andb_true_iff. rewrite flatten_terms_cons, IH by done.
  by destruct t.
Qed.

Lemma flat_flatten_term (t : term) : flat_terms (flatten_term t) = true.
Proof.
  induction t as [s|n s|g IH] using term_ind'; [done..|].
  simpl. induction IH as [|t g Ht _ IHg]; [done|].
  simpl. rewrite flat_terms_app, Ht. exact IHg.
Qed.

Lemma flat_flatten_terms (ts : list term) :
  flat_terms (flatten_terms ts) = true.
Proof. apply (flat_flatten_term (OptionalGroup ts)). Qed.

Lemma occurs_in_cons (x t : term) (ts : list term) :
  occurs_in x ts → occurs_in x (t :: ts).
Proof.
  intros [l Hx|g l Hg Hx].
  - apply occurs_here. by right.
  - apply (occurs_inside x g); [by right|done].
Qed.

Lemma occurs_in_flatten_term (x t : term) (ts : list term) :
  x ∈ flatten_term t → occurs_in x (t :: ts).
Proof.
  revert ts.
  induction t as [s|n s|g IH] using term_ind'; intros ts Hx.
  - apply list_elem_of_singleton in Hx as ->. apply occurs_here. by left.
  - apply list_elem_of_singleton in Hx as ->. apply occurs_here. by left.
  - apply (occurs_inside x g); [by left|].
    simpl in Hx. clear ts. induction IH as [|t g Ht _ IHg].
    + by apply elem_of_nil in Hx.
    + simpl in Hx. apply elem_of_app in Hx as [Hx|Hx].
      * by apply Ht.
      * by apply occurs_in_cons, IHg.
Qed.

Lemma elem_of_flatten_terms (x : term) (ts : list term) :
  x ∈ flatten_terms ts ↔ is_group x = false ∧ occurs_in x ts.
Proof.
  split.
  - intros Hx.
    assert (is_group x = false) as Hg.
    { pose proof (flat_flatten_terms ts) as Hf.
      unfold flat_terms in Hf. rewrite forallb_forall in Hf.
      apply negb_true_iff, Hf. by apply list_elem_of_In. }
    split; [done|].
    change (x ∈ flatten_term (OptionalGroup ts)) in Hx.
    apply (occurs_in_flatten_term _ _ []) in Hx.
    inversion Hx as [l H|g l Hin Hocc]; subst.
    + apply list_elem_of_singleton in H. subst x. discriminate.
    + apply list_elem_of_singleton in Hin. by injection Hin as ->.
  - intros [Hg Hocc]. induction Hocc as [l Hx|g l Hin _ IH].
    + induction l as [|t l IHl]; [by apply elem_of_nil in Hx|].
      rewrite flatten_terms_cons. apply elem_of_app.
      apply elem_of_cons in Hx as [->|Hx]; [left|right; by apply IHl].
      destruct t; [by left..|discriminate].
    + induction l as [|t l IHl]; [by apply elem_of_nil in Hin|].
      rewrite flatten_terms_cons. apply elem_of_app.
      apply elem_of_cons in Hin as [<-|Hin]; [left|right; by apply IHl].
      exact IH.
Qed.

Lemma flatten_flat (r : Rule) : is_flat r = true → flatten r = r.
Proof.
  destruct r as [l ts]. unfold is_flat, flatten. simpl.
  intros Hf. by rewrite flatten_terms_flat.
Qed.

(** C5: [flatten] returns an already flat Rule as it is, the same terms in
    the same order; flattening twice is flattening once; and the named
    terms of the flattened Rule are the named terms that occur in the Rule,
    with their names and symbols. *)
Theorem flatten_idempotent (r : Rule) :
  (is_flat r = true → flatten r = r)
  ∧ flatten (flatten r) = flatten r
  ∧ is_flat (flatten r) = true
  ∧ lhs (flatten r) = lhs r
  ∧ (∀ n s, NamedTerm n s ∈ terms (flatten r)
            ↔ occurs_in (NamedTerm n s) (terms r)).
Proof.
  destruct r as [l ts]. unfold is_flat, flatten. simpl.
  split; [|split; [|split; [|split]]].
  - apply (flatten_flat (mkRule l ts)).
  - by rewrite (flatten_terms_flat (flatten_terms ts))
      by apply flat_flatten_terms.
  - apply flat_flatten_terms.
  - reflexivity.
  - intros n s. rewrite elem_of_flatten_terms.
    split; [by intros [_ ?] | by intros ?].
Qed.

Lemma flatten_idempotent_witness :
  flatten (mkRule "x" [Term "A"; NamedTerm "b" "B"])
    = mkRule "x" [Term "A"; NamedTerm "b" "B"].
Proof.
  apply (proj1 (flatten_idempotent (mkRule "x" [Term "A"; NamedTerm "b" "B"]))).
  reflexivity.
Defined.

(** *** Expansion *)

Lemma splice_length (xs ys : list (list term)) :
  length (splice xs ys) = length xs * length ys.
Proof.
  assert (∀ x : list term, length (y ← ys; [x ++ y]) = length ys) as Hin.
  { intros x. induction ys as [|y ys IHy]; [done|]. cbn. by rewrite IHy. }
  unfold splice. induction xs as [|x xs IH]; [done|].
  cbn. by rewrite length_app, IH, Hin.
Qed.

Lemma splice_singleton (t : term) (ys : list (list term)) :
  splice [[t]] ys = (t ::.) <$> ys.
Proof.
  unfold splice. cbn. rewrite app_nil_r.
  induction ys as [|y ys IH]; [done|]. cbn. by rewrite IH.
Qed.

Lemma expand_terms_cons (t : term) (ts : list term) :
  expand_terms (t :: ts) = splice (expand_term t) (expand_terms ts).
Proof. reflexivity. Qed.

Lemma expand_term_group (g : list term) :
  expand_term (OptionalGroup g) = [] :: expand_terms g.
Proof. reflexivity. Qed.

Lemma expand_terms_flat (ts : list term) :
  flat_terms ts = true → expand_terms ts = [ts].
Proof.
  induction ts as [|t ts IH]; [done|].
  intros [Ht Hts]%andb_true_iff. rewrite expand_terms_cons, IH by done.
  by destruct t.
Qed.

(** *** The rule parser *)

Lemma parse_terms_Some (n : nat) :
  ∀ toks cur stack ts,
    length toks ≤ n →
    Parser.parse_terms toks cur stack = Some ts →
    Parser.balanced_go (length stack) toks = true
    ∧ Parser.markers_terminated toks = true.
Proof.
  induction n as [|n IH]; intros toks cur stack ts Hlen Hp.
  - destruct toks; [|simpl in Hlen; lia].
    destruct stack; [done|discriminate].
  - destruct toks as [|[s| | | | |] rest]; simpl in Hlen.
    + destruct stack; [done|discriminate].
    + simpl in Hp. destruct rest as [|[s1| | | | |] rest].
      * apply (IH [] _ _ _) in Hp; [done|simpl in *; lia].
      * apply (IH (Parser.TIdent s1 :: rest)) in Hp; [done|simpl in *; lia].
      * apply (IH (Parser.TColon :: rest)) in Hp; [done|simpl in *; lia].
      * destruct rest as [|[s2| | | | |] rest]; try discriminate.
        apply (IH rest) in Hp; [done|simpl in *; lia].
      * apply (IH (Parser.TLParen :: rest)) in Hp; [done|simpl in *; lia].
      * apply (IH (Parser.TRParen :: rest)) in Hp; [done|simpl in *; lia].
      * apply (IH (Parser.TQuestion :: rest)) in Hp; [done|simpl in *; lia].
    + discriminate.
    + discriminate.
    + simpl in Hp. apply (IH rest) in Hp; [done|lia].
    + simpl in Hp. destruct rest as [|[s1| | | | |] rest]; try discriminate.
      destruct stack as [|parent stack]; [discriminate|].
      apply (IH rest) in Hp; [done|simpl in *; lia].
    + discriminate.
Qed.

(** A line that the rule grammar accepts begins with [lhs ":"], nests its
    groups properly and has a marker after every group. *)
Lemma parse_rule_Some (toks : list Parser.token) (r : Rule) :
  Parser.parse_rule toks = Some r →
  Parser.has_separator toks = true
  ∧ Parser.balanced toks = true
  ∧ Parser.markers_terminated toks = true.
Proof.
  destruct toks as [|[l| | | | |] [|[s| | | | |] rest]]; try discriminate.
  simpl. intros Hp.
  destruct (Parser.parse_terms rest [] []) as [ts|] eqn:Hts; [|discriminate].
  apply (parse_terms_Some (length rest)) in Hts; [|done].
  by split.
Qed.

Lemma parse_line_Raise (line : string) (e : exn) :
  Parser.parse_line line = Raise e →
  e = ParseError line ∧ Parser.parse_rule (Parser.tokenize line) = None.
Proof.
  unfold Parser.parse_line.
  destruct (Parser.tokenize line) as [|t toks]; [discriminate|].
  destruct (Parser.parse_rule (t :: toks)); [discriminate|].
  intros [= <-]. done.
Qed.

(** C8: a text with a line whose groups are not nested properly, or that
    closes a group without the optional marker, or that is not blank and
    does not begin with [lhs ":"], is not parsed: the whole call raises
    the parse error, which carries a line of the text that is not a rule,
    and no Rule is returned. *)
Theorem parse_malformed (text line : string) :
  line ∈ Parser.lines text →
  Parser.balanced (Parser.tokenize line) = false
  ∨ Parser.markers_terminated (Parser.tokenize line) = false
  ∨ (Parser.tokenize line ≠ []
     ∧ Parser.has_separator (Parser.tokenize line) = false) →
  ∃ bad,
    Parser.parse text = Raise (ParseError bad)
    ∧ bad ∈ Parser.lines text
    ∧ Parser.tokenize bad ≠ []
    ∧ Parser.parse_rule (Parser.tokenize bad) = None.
Proof.
  intros Hin Hbad.
  assert (raises (Parser.parse_line line)) as Hr.
  { unfold Parser.parse_line.
    destruct (Parser.tokenize line) as [|t toks] eqn:Htoks.
    - destruct Hbad as [H|[H|[H _]]]; [discriminate..|done].
    - destruct (Parser.parse_rule (t :: toks)) as [r|] eqn:Hr; [|done].
      apply parse_rule_Some in Hr as (H1 & H2 & H3).
      destruct Hbad as [H|[H|[_ H]]]; congruence. }
  destruct (mapM_result_Raise _ _ _ Hin Hr) as (bad & e & Hbin & Hfb & Hm).
  pose proof Hfb as Hfb'.
  apply parse_line_Raise in Hfb as [-> Hnone].
  exists bad. unfold Parser.parse. rewrite Hm. repeat split; try done.
  intros Hnil. unfold Parser.parse_line in Hfb'. by rewrite Hnil in Hfb'.
Qed.

Lemma parse_malformed_witness :
  ∃ bad,
    Parser.parse "x: A (B" = Raise (ParseError bad)
    ∧ bad ∈ Parser.lines "x: A (B"
    ∧ Parser.tokenize bad ≠ []
    ∧ Parser.parse_rule (Parser.tokenize bad) = None.
Proof.
  apply (parse_malformed "x: A (B" "x: A (B").
  - simpl. by left.
  - left. reflexivity.
Defined.

(** *** Formatted lines *)

Lemma join_cons_cons (sep w w' : string) (ws : list string) :
  join sep (w :: w' :: ws) = w +:+ sep +:+ join sep (w' :: ws).
Proof. reflexivity. Qed.

Lemma no_blank_app_blank (u u' x x' : string) :
  no_blank u = true → no_blank u' = true →
  u +:+ String " " x = u' +:+ String " " x' → u = u' ∧ x = x'.
Proof.
  revert u'. induction u as [|a u IH]; intros [|a' u'] Hu Hu' Heq.
  - rewrite !app_nil_string in Heq. by injection Heq as ->.
  - rewrite app_nil_string, app_cons_string in Heq. injection Heq as <- _.
    simpl in Hu'. discriminate.
  - rewrite app_nil_string, app_cons_string in Heq. injection Heq as -> _.
    simpl in Hu. discriminate.
  - rewrite !app_cons_string in Heq. injection Heq as -> Heq.
    simpl in Hu, Hu'.
    apply andb_true_iff in Hu as [_ Hu]. apply andb_true_iff in Hu' as [_ Hu'].
    destruct (IH u' Hu Hu' Heq) as [-> ->]. done.
Qed.

Lemma no_blank_ne (w u x : string) :
  no_blank w = true → w ≠ u +:+ String " " x.
Proof.
  revert w. induction u as [|a u IH]; intros w Hw Heq.
  - rewrite app_nil_string in Heq. subst w. simpl in Hw. discriminate.
  - rewrite app_cons_string in Heq. subst w. simpl in Hw.
    apply andb_true_iff in Hw as [_ Hw]. by apply (IH _ Hw).
Qed.

Lemma is_word_no_blank (w : string) : is_word w = true → no_blank w = true.
Proof. by destruct w. Qed.

(** Lines of words are equal only when the words are. *)
Lemma join_inj (ws ws' : list string) :
  forallb is_word ws = true → forallb is_word ws' = true →
  join " " ws = join " " ws' → ws = ws'.
Proof.
  revert ws'. induction ws as [|w ws IH]; intros [|w' ws'] Hw Hw' Heq.
  - done.
  - simpl in Hw'. apply andb_true_iff in Hw' as [Hw' _].
    destruct w' as [|a w']; [discriminate|].
    destruct ws' as [|w2 ws']; [discriminate|].
    rewrite join_cons_cons, app_cons_string in Heq. discriminate.
  - simpl in Hw. apply andb_true_iff in Hw as [Hw _].
    destruct w as [|a w]; [discriminate|].
    destruct ws as [|w2 ws]; [discriminate|].
    rewrite join_cons_cons, app_cons_string in Heq. discriminate.
  - simpl in Hw, Hw'.
    apply andb_true_iff in Hw as [Hw Hws].
    apply andb_true_iff in Hw' as [Hw' Hws'].
    apply is_word_no_blank in Hw, Hw'.
    destruct ws as [|w2 ws], ws' as [|w2' ws'].
    + simpl in Heq. by subst.
    + rewrite join_cons_cons in Heq. simpl in Heq.
      by apply no_blank_ne in Heq.
    + rewrite join_cons_cons in Heq. simpl in Heq. symmetry in Heq.
      by apply no_blank_ne in Heq.
    + rewrite !join_cons_cons in Heq.
      apply no_blank_app_blank in Heq as [-> Heq]; [|done..].
      f_equal. by apply IH.
Qed.

(** *** Coercions *)

Section Coercions.

Variable _parse : string → result (list Rule).

Lemma coerce_to_ruleset_app (xs ys : list item) :
  _coerce_to_ruleset _parse (Many (xs ++ ys)) =
    (a ← _coerce_to_ruleset _parse (Many xs);
     b ← _coerce_to_ruleset _parse (Many ys); mret (a ++ b)).
Proof.
  unfold _coerce_to_ruleset. simpl. rewrite mapM_result_app.
  destruct (mapM _ xs) as [a|e]; simpl; [|reflexivity].
  destruct (mapM _ ys) as [b|e]; simpl; [|reflexivity].
  by rewrite concat_app.
Qed.

(** A string that the parser rejects fails the coercion with the
    parser's error. *)
Lemma coerce_to_ruleset_Raise (arg : ruleset_arg) (s : string) :
  ItemStr s ∈ as_sequence arg → raises (_parse s) →
  ∃ s' e, ItemStr s' ∈ as_sequence arg ∧ _parse s' = Raise e
          ∧ _coerce_to_ruleset _parse arg = Raise e.
Proof.
  intros Hin Hr. unfold _coerce_to_ruleset.
  destruct (mapM_result_Raise (coerce_to_rule _parse) _ _ Hin Hr)
    as (y & e & Hy & Hfy & Hm).
  destruct y as [r|s']; [discriminate|].
  exists s', e. simpl. by rewrite Hm.
Qed.

Lemma coerce_to_ruleset_Ok (rules_of : string → list Rule)
    (arg : ruleset_arg) :
  (∀ s, ItemStr s ∈ as_sequence arg → _parse s = Ok (rules_of s)) →
  _coerce_to_ruleset _parse arg =
    Ok (concat ((λ x, match x with
                      | ItemRule r => [r]
                      | ItemStr s => rules_of s
                      end) <$> as_sequence arg)).
Proof.
  intros Hp. unfold _coerce_to_ruleset. simpl.
  erewrite mapM_result_Ok; [reflexivity|].
  intros [r|s] Hin; simpl; [reflexivity|]. by apply Hp.
Qed.

(** C10: a ruleset argument that is not a list is taken as the list of
    that one element: a single Rule gives the list of that Rule, a single
    string what the parser gives for it; when the parser accepts every
    string of a list, the coercion returns, in the order of the list, the
    Rules of the parser for each string and each Rule as it is,
    concatenated. *)
Theorem coerce_to_ruleset_concat (rules_of : string → list Rule) :
  (∀ r, _coerce_to_ruleset _parse (One (ItemRule r)) = Ok [r])
  ∧ (∀ s, _coerce_to_ruleset _parse (One (ItemStr s)) = _parse s)
  ∧ (∀ x, _coerce_to_ruleset _parse (One x)
          = _coerce_to_ruleset _parse (Many [x]))
  ∧ (∀ xs,
       (∀ s, ItemStr s ∈ xs → _parse s = Ok (rules_of s)) →
       _coerce_to_ruleset _parse (Many xs) =
         Ok (concat ((λ x, match x with
                           | ItemRule r => [r]
                           | ItemStr s => rules_of s
                           end) <$> xs))).
Proof.
  split; [reflexivity|]. split; [|split; [reflexivity|]].
  - intros s. unfold _coerce_to_ruleset. simpl.
    destruct (_parse s) as [rs|e]; simpl; [|reflexivity].
    by rewrite app_nil_r.
  - intros xs Hp. by apply (coerce_to_ruleset_Ok rules_of (Many xs)).
Qed.

(** C7: when the coercion to a ruleset gives a number of Rules other than
    one, the coercion to a single rule raises [SingleRuleExpectedError]
    with the argument it was given; when it gives one Rule, that Rule is
    returned. *)
Theorem coerce_to_single_rule_arity (arg : ruleset_arg) (rs : list Rule) :
  _coerce_to_ruleset _parse arg = Ok rs →
  (length rs ≠ 1 →
     _coerce_to_single_rule _parse arg = Raise (SingleRuleExpectedError arg))
  ∧ (∀ r, rs = [r] → _coerce_to_single_rule _parse arg = Ok r).
Proof.
  intros Hrs. unfold _coerce_to_single_rule. rewrite Hrs. simpl. split.
  - intros Hlen. by destruct (decide (length rs ≠ 1)).
  - intros r ->. reflexivity.
Qed.

(** An error of the parser is not turned into an arity error. *)
Lemma coerce_to_single_rule_Raise (arg : ruleset_arg) (e : exn) :
  _coerce_to_ruleset _parse arg = Raise e →
  _coerce_to_single_rule _parse arg = Raise e.
Proof. intros H. unfold _coerce_to_single_rule. by rewrite H. Qed.

(** C9: without a definition, [None] or the empty string, [parse] raises
    [NoDocstringError] whatever the parser is, and the message has the
    name of the function when there is one; any other definition goes to
    the parser with the white space at its two ends removed, the white
    space being the characters 9 to 13, 28 to 31, 32, 133 and 160. *)
Theorem parse_docstring (f : string) (a : ascii) (d : string) :
  parse _parse None (Some f)
    = Raise (NoDocstringError ("Function " +:+ f +:+ " has no docstring"))
  ∧ parse _parse (Some "") (Some f)
    = Raise (NoDocstringError ("Function " +:+ f +:+ " has no docstring"))
  ∧ parse _parse None None
    = Raise (NoDocstringError "Provided function has no docstring")
  ∧ parse _parse (Some "") None
    = Raise (NoDocstringError "Provided function has no docstring")
  ∧ (∀ fname, parse _parse (Some (String a d)) fname
              = _parse (strip (String a d)))
  ∧ (∃ pre post, String a d = pre +:+ strip (String a d) +:+ post
       ∧ all_whitespace pre = true ∧ all_whitespace post = true)
  ∧ starts_with_whitespace (strip (String a d)) = false
  ∧ ends_with_whitespace (strip (String a d)) = false
  ∧ (∀ c, is_whitespace c
          = bool_decide (nat_of_ascii c ∈ [9; 10; 11; 12; 13; 28; 29; 30;
                                           31; 32; 133; 160])).
Proof.
  do 4 (split; [reflexivity|]). split; [reflexivity|].
  split; [apply strip_spec|]. split; [apply strip_spec|].
  split; [apply strip_spec|].
  intros [[] [] [] [] [] [] [] []]; reflexivity.
Qed.

End Coercions.

(** *** [expand_optionals] *)

Lemma remove_dups_NoDup {A} `{EqDecision A} (l : list A) :
  NoDup l → remove_dups l = l.
Proof.
  induction 1 as [|x l Hx _ IH]; [done|].
  simpl. destruct (decide_rel elem_of x l); [done|]. by rewrite IH.
Qed.

Lemma bind_singleton_id {A} (l : list A) : (y ← l; [y]) = l.
Proof. induction l as [|y l IH]; [done|]. cbn. by rewrite IH. Qed.

Lemma splice_cons (x : list term) (xs ys : list (list term)) :
  splice (x :: xs) ys = ((x ++.) <$> ys) ++ splice xs ys.
Proof.
  unfold splice. cbn. apply (f_equal (λ l, l ++ _)).
  induction ys as [|y ys IH]; [done|]. cbn. by rewrite IH.
Qed.

(** With its first group left out, a sequence expands as its remainder
    does: nothing that lies inside the group, at any depth, is spliced
    in. *)
Lemma expand_terms_group (g rest : list term) :
  expand_terms (OptionalGroup g :: rest)
  = expand_terms rest ++ splice (expand_terms g) (expand_terms rest).
Proof.
  rewrite expand_terms_cons, expand_term_group, splice_cons.
  apply (f_equal (λ l, l ++ _)). apply list_fmap_id.
Qed.

Lemma expand_terms_length (ts : list term) :
  groups_flat ts = true →
  length (expand_terms ts) = 2 ^ top_level_groups ts.
Proof.
  unfold top_level_groups.
  induction ts as [|t ts IH]; [done|].
  intros [Ht Hts]%andb_true_iff.
  rewrite expand_terms_cons, splice_length, IH by done.
  rewrite filter_cons.
  destruct t as [s|n s|g];
    [| |rewrite expand_term_group, (expand_terms_flat g) by done];
    simpl; lia.
Qed.

Lemma expand_terms_flat_group (g ts : list term) :
  flat_terms g = true →
  expand_terms (OptionalGroup g :: ts)
  = expand_terms ts ++ ((g ++.) <$> expand_terms ts).
Proof.
  intros Hg. rewrite expand_terms_group, (expand_terms_flat g) by done.
  by rewrite splice_cons, app_nil_r.
Qed.

Lemma expand_terms_cons_flat (t : term) (ts : list term) :
  is_group t = false →
  expand_terms (t :: ts) = (t ::.) <$> expand_terms ts.
Proof.
  intros Ht. rewrite expand_terms_cons, <- splice_singleton. by destruct t.
Qed.

(** A resolution has terms of the flattened sequence only. *)
Lemma expand_terms_subset (ts v : list term) (x : term) :
  groups_flat ts = true →
  v ∈ expand_terms ts → x ∈ v → x ∈ flatten_terms ts.
Proof.
  revert v. induction ts as [|t ts IH]; intros v Hgf Hv Hx.
  - apply list_elem_of_singleton in Hv as ->. by apply elem_of_nil in Hx.
  - apply andb_true_iff in Hgf as [Ht Hgf].
    rewrite flatten_terms_cons. apply elem_of_app.
    destruct (is_group t) eqn:Hgrp.
    + destruct t as [| |g]; try discriminate.
      rewrite expand_terms_flat_group in Hv by done.
      change (flatten_term (OptionalGroup g)) with (flatten_terms g).
      rewrite flatten_terms_flat by done.
      apply elem_of_app in Hv as [Hv|Hv]; [right; by apply (IH v)|].
      apply list_elem_of_fmap in Hv as (v' & -> & Hv').
      apply elem_of_app in Hx as [Hx|Hx]; [by left|right; by apply (IH v')].
    + rewrite expand_terms_cons_flat in Hv by done.
      apply list_elem_of_fmap in Hv as (v' & -> & Hv').
      apply elem_of_cons in Hx as [->|Hx]; [|right; by apply (IH v')].
      left. destruct t; [by left..|discriminate].
Qed.

Lemma expand_terms_variants_flat (ts v : list term) :
  groups_flat ts = true → v ∈ expand_terms ts → flat_terms v = true.
Proof.
  revert v. induction ts as [|t ts IH]; intros v Hgf Hv.
  - by apply list_elem_of_singleton in Hv as ->.
  - apply andb_true_iff in Hgf as [Ht Hgf].
    destruct (is_group t) eqn:Hgrp.
    + destruct t as [| |g]; try discriminate.
      rewrite expand_terms_flat_group in Hv by done.
      apply elem_of_app in Hv as [Hv|Hv]; [by apply IH|].
      apply list_elem_of_fmap in Hv as (v' & -> & Hv').
      rewrite flat_terms_app, Ht. by apply IH.
    + rewrite expand_terms_cons_flat in Hv by done.
      apply list_elem_of_fmap in Hv as (v' & -> & Hv').
      simpl. rewrite Hgrp. by apply IH.
Qed.

(** When no two terms of the flattened sequence have the same image under
    [f] and no group is empty, the resolutions have pairwise different
    images. *)
Lemma expand_terms_NoDup_fmap {B} (f : term → B) (ts : list term) :
  groups_flat ts = true → groups_nonempty ts = true →
  NoDup (f <$> flatten_terms ts) → NoDup (fmap (M:=list) f <$> expand_terms ts).
Proof.
  induction ts as [|t ts IH]; intros Hgf Hne Hnd.
  - apply NoDup_singleton.
  - apply andb_true_iff in Hgf as [Ht Hgf].
    apply andb_true_iff in Hne as [Hte Hne].
    rewrite flatten_terms_cons, fmap_app in Hnd.
    apply NoDup_app in Hnd as (Hnt & Hdisj & Hnd).
    destruct (is_group t) eqn:Hgrp.
    + destruct t as [| |g]; try discriminate.
      rewrite expand_terms_flat_group, fmap_app by done.
      apply NoDup_app. split; [by apply IH|]. split.
      * intros u Hu Hu'.
        apply list_elem_of_fmap in Hu as (v & -> & Hv).
        apply list_elem_of_fmap in Hu' as (w & Hw & Hw').
        apply list_elem_of_fmap in Hw' as (v' & -> & Hv').
        destruct g as [|x g]; [discriminate|].
        apply (Hdisj (f x)).
        -- change (flatten_term (OptionalGroup (x :: g)))
             with (flatten_terms (x :: g)).
           rewrite flatten_terms_flat by done. by left.
        -- assert (f x ∈ f <$> v) as Hfx by (rewrite Hw; by left).
           apply list_elem_of_fmap in Hfx as (y & -> & Hy).
           apply list_elem_of_fmap_2.
           by apply (expand_terms_subset ts v y).
      * rewrite <- list_fmap_compose.
        rewrite (list_fmap_ext _ (((f <$> g) ++.) ∘ fmap (M:=list) f) (expand_terms ts))
          by (intros i v _; simpl; apply fmap_app).
        rewrite list_fmap_compose. apply (NoDup_fmap_2 _). by apply IH.
    + rewrite expand_terms_cons_flat by done.
      rewrite <- list_fmap_compose.
      rewrite (list_fmap_ext _ ((f t ::.) ∘ fmap (M:=list) f) (expand_terms ts))
        by (by intros i v _).
      rewrite list_fmap_compose. apply (NoDup_fmap_2 _). by apply IH.
Qed.

Lemma expand_terms_NoDup (ts : list term) :
  groups_flat ts = true → groups_nonempty ts = true →
  NoDup (flatten_terms ts) → NoDup (expand_terms ts).
Proof.
  intros Hgf Hne Hnd.
  rewrite <- (list_fmap_id (expand_terms ts)).
  rewrite (list_fmap_ext id (fmap (M:=list) id) (expand_terms ts))
    by (intros i v _; by rewrite list_fmap_id).
  apply expand_terms_NoDup_fmap; [done..|]. by rewrite list_fmap_id.
Qed.

Section Expansion.

Variable _parse : string → result (list Rule).

Lemma process_rule_resolution (format pure_ply : bool) (rule : Rule) :
  process_rule format pure_ply rule
  = remove_dups (resolution format pure_ply <$> Rule_expand_optionals rule).
Proof. unfold process_rule, resolution. by destruct format. Qed.

Lemma expand_optionals_rule (r : Rule) (format pure_ply : bool) :
  expand_optionals _parse (One (ItemRule r)) format pure_ply
  = Ok (process_rule format pure_ply r).
Proof. unfold expand_optionals. cbn. by rewrite app_nil_r. Qed.

(** A sufficient condition for Rules without "duplicate-producing
    overlap", when the entries are flattened Rules. *)
Lemma distinct_terms_no_overlap (r : Rule) (pure_ply : bool) :
  groups_flat (terms r) = true → groups_nonempty (terms r) = true →
  NoDup (terms (flatten r)) →
  NoDup (resolution false pure_ply <$> Rule_expand_optionals r).
Proof.
  intros Hgf Hne Hnd. unfold Rule_expand_optionals.
  rewrite <- list_fmap_compose.
  apply NoDup_fmap_2_strong; [|by apply expand_terms_NoDup].
  intros v v' Hv Hv'. unfold resolution, flatten. simpl.
  rewrite !flatten_terms_flat by by eapply expand_terms_variants_flat.
  by intros [= ->].
Qed.

(** The same when the entries are formatted lines: the symbols are words
    and no two terms of the flattened Rule have the same symbol. *)
Lemma distinct_symbols_no_overlap (r : Rule) :
  groups_flat (terms r) = true → groups_nonempty (terms r) = true →
  forallb is_word (term_text true <$> terms (flatten r)) = true →
  NoDup (term_text true <$> terms (flatten r)) →
  NoDup (resolution true true <$> Rule_expand_optionals r).
Proof.
  intros Hgf Hne Hw Hnd. unfold Rule_expand_optionals.
  rewrite <- list_fmap_compose.
  rewrite (list_fmap_ext _
             ((λ u, Formatted (lhs r +:+ " : " +:+ join " " u))
                ∘ fmap (M:=list) (term_text true)) (expand_terms (terms r))).
  2:{ intros i v Hv. unfold resolution, Nodes.format, flatten. simpl.
      rewrite flatten_terms_flat; [done|].
      eapply expand_terms_variants_flat; [done|].
      by eapply list_elem_of_lookup_2. }
  rewrite list_fmap_compose.
  apply NoDup_fmap_2_strong; [|by apply expand_terms_NoDup_fmap].
  assert (∀ u, u ∈ fmap (M:=list) (term_text true) <$> expand_terms (terms r)
               → forallb is_word u = true) as Hwords.
  { intros u (v & -> & Hv)%list_elem_of_fmap.
    apply forallb_forall. intros w Hin%list_elem_of_In.
    apply list_elem_of_fmap in Hin as (y & -> & Hy).
    rewrite forallb_forall in Hw. apply Hw, list_elem_of_In.
    apply list_elem_of_fmap_2. simpl.
    by apply (expand_terms_subset (terms r) v y). }
  intros u u' Hu Hu' [= Heq].
  do 2 apply (inj (String.app _)) in Heq.
  apply join_inj; auto.
Qed.

Lemma process_rule_length (r : Rule) (format pure_ply : bool) :
  groups_flat (terms r) = true →
  NoDup (resolution format pure_ply <$> Rule_expand_optionals r) →
  NoDup (process_rule format pure_ply r)
  ∧ length (process_rule format pure_ply r) = 2 ^ top_level_groups (terms r).
Proof.
  intros Hg Hnd. rewrite process_rule_resolution.
  split; [apply NoDup_remove_dups|].
  rewrite remove_dups_NoDup by done.
  unfold Rule_expand_optionals. rewrite !length_fmap.
  by apply expand_terms_length.
Qed.

(** A Rule of words with [k] top-level groups, none empty, and no symbol
    twice has [2 ^ k] formatted entries. *)
Lemma expansion_count_distinct_symbols (r : Rule) :
  groups_flat (terms r) = true → groups_nonempty (terms r) = true →
  forallb is_word (term_text true <$> terms (flatten r)) = true →
  NoDup (term_text true <$> terms (flatten r)) →
  length (process_rule true true r) = 2 ^ top_level_groups (terms r).
Proof.
  intros Hgf Hne Hw Hnd. apply process_rule_length; [done|].
  by apply distinct_symbols_no_overlap.
Qed.

(** C1: a Rule whose groups are its [k] top-level groups, and whose
    resolutions give pairwise different entries, has exactly [2 ^ k]
    entries in the output of [expand_optionals], all different; the
    text [x: A (B)? (C)?] has the four entries [A], [A B], [A C] and
    [A B C]. *)
Theorem expansion_count :
  (∀ (r : Rule) (format pure_ply : bool),
     groups_flat (terms r) = true →
     NoDup (resolution format pure_ply <$> Rule_expand_optionals r) →
     ∃ out, expand_optionals _parse (One (ItemRule r)) format pure_ply
            = Ok out
            ∧ NoDup out
            ∧ length out = 2 ^ top_level_groups (terms r))
  ∧ (∃ r out,
       Parser.parse "x: A (B)? (C)?" = Ok [r]
       ∧ top_level_groups (terms r) = 2
       ∧ expand_optionals Parser.parse (One (ItemStr "x: A (B)? (C)?"))
           true true = Ok out
       ∧ out ≡ₚ [Formatted "x : A"; Formatted "x : A B";
                 Formatted "x : A C"; Formatted "x : A B C"]).
Proof.
  split.
  - intros r format pure_ply Hg Hnd.
    exists (process_rule format pure_ply r).
    split; [apply expand_optionals_rule|].
    by apply process_rule_length.
  - eexists _, [Formatted "x : A"; Formatted "x : A C";
                Formatted "x : A B"; Formatted "x : A B C"].
    split; [reflexivity|]. split; [reflexivity|].
    split; [reflexivity|].
    apply perm_skip, perm_swap.
Qed.

(** C4: a Rule without groups expands to itself alone: its one entry is
    the Rule, unchanged by flattening, or its line when formatted. *)
Theorem expand_no_optionals (r : Rule) (pure_ply : bool) :
  is_flat r = true →
  Rule_expand_optionals r = [r]
  ∧ expand_optionals _parse (One (ItemRule r)) false pure_ply
    = Ok [Flattened r]
  ∧ expand_optionals _parse (One (ItemRule r)) true pure_ply
    = Ok [Formatted (Nodes.format r pure_ply)].
Proof.
  intros Hf.
  assert (Rule_expand_optionals r = [r]) as Hr.
  { destruct r as [l ts]. unfold Rule_expand_optionals. simpl.
    by rewrite expand_terms_flat. }
  assert (flatten r = r) as Hfl by by apply flatten_flat.
  split; [done|].
  rewrite !expand_optionals_rule, !process_rule_resolution, Hr.
  unfold resolution. cbn. rewrite Hfl. done.
Qed.

(** C2, as amended: the entries that come from one Rule are pairwise
    different, and they are the entries of its resolutions, compared as
    formatted strings or as flattened Rules according to [format]; the
    output for a ruleset is the concatenation, Rule by Rule, of these
    lists. *)
Theorem expand_optionals_dedup_per_rule (arg : ruleset_arg)
    (format pure_ply : bool) (rs : list Rule) :
  _coerce_to_ruleset _parse arg = Ok rs →
  expand_optionals _parse arg format pure_ply
  = Ok (concat (process_rule format pure_ply <$> rs))
  ∧ ∀ rule, rule ∈ rs →
      NoDup (process_rule format pure_ply rule)
      ∧ ∀ e, e ∈ process_rule format pure_ply rule
             ↔ ∃ v, v ∈ Rule_expand_optionals rule
                    ∧ e = resolution format pure_ply v.
Proof.
  intros Hrs. unfold expand_optionals. rewrite Hrs. split; [done|].
  intros rule _. rewrite process_rule_resolution.
  split; [apply NoDup_remove_dups|].
  intros e. rewrite elem_of_remove_dups, list_elem_of_fmap.
  split; intros (v & H1 & H2); exists v; by split.
Qed.

End Expansion.

(** C3: the text [x: A (B (C)?)?] has the three entries [A], [A B] and
    [A B C]; [A C] is not among them, since leaving a group out leaves out
    all that lies inside it. *)
Theorem nested_optional_expansion :
  (∀ g rest,
     expand_terms (OptionalGroup g :: rest)
     = expand_terms rest ++ splice (expand_terms g) (expand_terms rest))
  ∧ (∃ out,
       expand_optionals Parser.parse (One (ItemStr "x: A (B (C)?)?"))
         false true = Ok out
       ∧ out ≡ₚ [Flattened (mkRule "x" [NamedTerm "A" "A"]);
                 Flattened (mkRule "x" [NamedTerm "A" "A"; NamedTerm "B" "B"]);
                 Flattened (mkRule "x" [NamedTerm "A" "A"; NamedTerm "B" "B";
                                        NamedTerm "C" "C"])]
       ∧ Flattened (mkRule "x" [NamedTerm "A" "A"; NamedTerm "C" "C"]) ∉ out)
  ∧ (∃ out,
       expand_optionals Parser.parse (One (ItemStr "x: A (B (C)?)?"))
         true true = Ok out
       ∧ out ≡ₚ [Formatted "x : A"; Formatted "x : A B";
                 Formatted "x : A B C"]
       ∧ Formatted "x : A C" ∉ out).
Proof.
  split; [apply expand_terms_group|]. split.
  - exists [Flattened (mkRule "x" [NamedTerm "A" "A"]);
            Flattened (mkRule "x" [NamedTerm "A" "A"; NamedTerm "B" "B"]);
            Flattened (mkRule "x" [NamedTerm "A" "A"; NamedTerm "B" "B";
                                   NamedTerm "C" "C"])].
    split; [reflexivity|]. split; [reflexivity|].
    rewrite !elem_of_cons, elem_of_nil. intros [H|[H|[H|[]]]]; discriminate H.
  - exists [Formatted "x : A"; Formatted "x : A B"; Formatted "x : A B C"].
    split; [reflexivity|]. split; [reflexivity|].
    rewrite !elem_of_cons, elem_of_nil. intros [H|[H|[H|[]]]]; discriminate H.
Qed.

(** Two Rules of one ruleset that have a resolution in common both
    contribute it: the output has [x : A B] twice. *)
Lemma expand_optionals_dup_across_rules :
  ∃ out,
    expand_optionals Parser.parse
      (Many [ItemRule (mkRule "x" [Term "A"; OptionalGroup [Term "B"]]);
             ItemRule (mkRule "x" [OptionalGroup [Term "A"]; Term "B"])])
      true true = Ok out
    ∧ ¬ NoDup out.
Proof.
  exists [Formatted "x : A"; Formatted "x : A B";
          Formatted "x : B"; Formatted "x : A B"].
  split; [reflexivity|].
  intros Hnd. apply NoDup_cons in Hnd as [_ Hnd].
  apply NoDup_cons in Hnd as [Hin _]. apply Hin.
  rewrite !elem_of_cons. right. by left.
Qed.

(** *** [create_wrapper] *)

Section Wrapper.

Variable _parse : string → result (list Rule).
Context {V : Type}.
Implicit Types (p : list V) (kwargs : gmap string V).

Lemma names_cons_named (n s : string) (ts : list term) :
  names (NamedTerm n s :: ts) = n :: names ts.
Proof. reflexivity. Qed.

(** With a slot for every term, the loop of the wrapper raises nothing. *)
Lemma extract_kwargs_Ok (ts : list term) (i : nat) p kwargs :
  i + length ts < length p →
  ∃ kw, extract_kwargs i ts p kwargs = Ok kw.
Proof.
  revert i kwargs. induction ts as [|t ts IH]; intros i kwargs Hlen.
  - by eexists.
  - simpl in Hlen. destruct t as [s|n s|g]; simpl.
    + apply IH. lia.
    + destruct (lookup_lt_is_Some_2 p (i + 1)) as [v ->]; [lia|].
      apply IH. lia.
    + apply IH. lia.
Qed.

(** What the loop leaves in [kwargs] when no two terms have one name. *)
Lemma extract_kwargs_lookup (ts : list term) (i : nat) p kwargs kw :
  extract_kwargs i ts p kwargs = Ok kw →
  NoDup (names ts) →
  (∀ j n s, ts !! j = Some (NamedTerm n s) → kw !! n = p !! (i + j + 1))
  ∧ (∀ n, n ∉ names ts → kw !! n = kwargs !! n).
Proof.
  revert i kwargs.
  induction ts as [|t ts IH]; intros i kwargs Hex Hnd.
  - simpl in Hex. injection Hex as <-. split; [|done].
    intros j n s Hj. by rewrite lookup_nil in Hj.
  - assert (∀ k0, extract_kwargs (S i) ts p k0 = Ok kw →
              NoDup (names ts) →
              (∀ j n s, ts !! j = Some (NamedTerm n s) →
                        kw !! n = p !! (i + S j + 1))
              ∧ (∀ n, n ∉ names ts → kw !! n = k0 !! n)) as IH'.
    { intros k0 H0 H1. destruct (IH (S i) k0 H0 H1) as [Ha Hb].
      split; [|done]. intros j n s Hj.
      rewrite (Ha j n s Hj). f_equal. lia. }
    destruct t as [s0|n0 s0|g]; simpl in Hex.
    + destruct (IH' kwargs Hex Hnd) as [Ha Hb]. split; [|done].
      intros [|j] n s Hj; [discriminate|]. by apply (Ha j n s).
    + rewrite names_cons_named in Hnd. apply NoDup_cons in Hnd as [Hn0 Hnd].
      destruct (p !! (i + 1)) as [v|] eqn:Hv; [|discriminate].
      destruct (IH' _ Hex Hnd) as [Ha Hb]. split.
      * intros [|j] n s Hj.
        -- injection Hj as <- <-. rewrite (Hb n0 Hn0), lookup_insert_eq.
           rewrite <- Hv. f_equal. lia.
        -- by apply (Ha j n s).
      * intros n Hn. rewrite names_cons_named in Hn.
        apply not_elem_of_cons in Hn as [Hne Hn].
        rewrite (Hb n Hn). by apply lookup_insert_ne.
    + destruct (IH' kwargs Hex Hnd) as [Ha Hb]. split; [|done].
      intros [|j] n s Hj; [discriminate|]. by apply (Ha j n s).
Qed.

Lemma elem_of_names (n : string) (ts : list term) :
  n ∈ names ts ↔ ∃ i s, ts !! i = Some (NamedTerm n s).
Proof.
  unfold names. rewrite list_elem_of_omap. split.
  - intros (t & Ht & Hn). apply list_elem_of_lookup in Ht as [i Hi].
    destruct t as [|n' s|]; [discriminate| |discriminate].
    injection Hn as ->. by exists i, s.
  - intros (i & s & Hi). exists (NamedTerm n s).
    split; [|done]. apply list_elem_of_lookup. by exists i.
Qed.

(** The case of a flattened Rule whose named terms have different names:
    with a slot for the result and one for each term, the wrapper built by
    [create_wrapper] calls the function with, for each named term at
    position [i], the slot [p[i + 1]] under the name of the term, and with
    nothing else; the result of the function goes to slot 0 and the other
    slots stay as they are. *)
Theorem wrapper_positional (r : Rule) (func : gmap string V → result V)
    (p : list V) :
  is_flat r = true →
  NoDup (names (terms r)) →
  length (terms r) < length p →
  ∃ w kwargs,
    create_wrapper _parse (One (ItemRule r)) func = Ok w
    ∧ call w p = (v ← func kwargs; mret (<[0 := v]> p))
    ∧ (∀ i n s, terms r !! i = Some (NamedTerm n s) →
                kwargs !! n = p !! (i + 1))
    ∧ (∀ n, is_Some (kwargs !! n) →
            ∃ i s, terms r !! i = Some (NamedTerm n s)).
Proof.
  intros Hflat Hnd Hlen.
  destruct (extract_kwargs_Ok (terms r) 0 p ∅) as [kw Hkw]; [simpl; lia|].
  destruct (extract_kwargs_lookup _ _ _ _ _ Hkw Hnd) as [Ha Hb].
  assert (flatten r = r) as Hfl by by apply flatten_flat.
  eexists _, kw. split; [|split; [|split]].
  - unfold create_wrapper, _coerce_to_single_rule, _coerce_to_ruleset.
    simpl. reflexivity.
  - simpl. rewrite Hfl. unfold wrapper. rewrite Hkw. simpl.
    destruct (func kw) as [v|e]; simpl; [|done].
    destruct p; [simpl in Hlen; lia|done].
  - intros i n s Hi. by rewrite (Ha i n s Hi).
  - intros n Hn. apply elem_of_names.
    destruct (decide (n ∈ names (terms r))) as [|Hnot]; [done|].
    rewrite (Hb n Hnot), lookup_empty in Hn. by destruct Hn.
Qed.

(** The docstring of the wrapper is the formatted line of the rule. *)
Lemma create_wrapper_doc (arg : ruleset_arg) (r : Rule)
    (func : gmap string V → result V) (w : wrapped V) :
  _coerce_to_single_rule _parse arg = Ok r →
  create_wrapper _parse arg func = Ok w →
  doc w = Nodes.format (flatten r) true.
Proof.
  unfold create_wrapper. intros -> Hw. simpl in Hw. by injection Hw as <-.
Qed.

End Wrapper.

(** The empty list and, with the parser of the spec, the empty string are
    arity errors; a string of one rule is that rule. *)
Lemma coerce_to_single_rule_arity_witness :
  _coerce_to_single_rule Parser.parse (One (ItemStr ""))
    = Raise (SingleRuleExpectedError (One (ItemStr "")))
  ∧ _coerce_to_single_rule Parser.parse (Many [])
    = Raise (SingleRuleExpectedError (Many []))
  ∧ _coerce_to_single_rule Parser.parse (One (ItemStr "x: A"))
    = Ok (mkRule "x" [NamedTerm "A" "A"]).
Proof.
  split; [|split].
  - apply (coerce_to_single_rule_arity Parser.parse (One (ItemStr "")) []);
      [reflexivity | simpl; lia].
  - apply (coerce_to_single_rule_arity Parser.parse (Many []) []);
      [reflexivity | simpl; lia].
  - apply (coerce_to_single_rule_arity Parser.parse (One (ItemStr "x: A"))
             [mkRule "x" [NamedTerm "A" "A"]]); reflexivity.
Defined.

Lemma coerce_to_ruleset_concat_witness :
  _coerce_to_ruleset Parser.parse (One (ItemRule (mkRule "y" [Term "B"])))
  = Ok [mkRule "y" [Term "B"]]
  ∧ _coerce_to_ruleset Parser.parse (One (ItemStr "x: A"))
    = Ok [mkRule "x" [NamedTerm "A" "A"]]
  ∧ _coerce_to_ruleset Parser.parse
      (Many [ItemStr "x: A"; ItemRule (mkRule "y" [Term "B"]);
             ItemStr "z: C"])
    = Ok [mkRule "x" [NamedTerm "A" "A"]; mkRule "y" [Term "B"];
          mkRule "z" [NamedTerm "C" "C"]].
Proof.
  pose proof (coerce_to_ruleset_concat Parser.parse
                (λ s, match Parser.parse s with
                      | Ok rs => rs
                      | Raise _ => []
                      end)) as (Hrule & Hstr & _ & Hmany).
  split; [apply Hrule|]. split; [apply (Hstr "x: A")|].
  apply (Hmany [ItemStr "x: A"; ItemRule (mkRule "y" [Term "B"]);
                ItemStr "z: C"]).
  intros s Hin.
  repeat (apply elem_of_cons in Hin as [Hin|Hin];
          [first [discriminate Hin | injection Hin as ->; reflexivity]|]).
  by apply elem_of_nil in Hin.
Defined.


(** The rule [x: A (B)? (C)?], given as a Rule: two groups, four
    entries. *)
Lemma expansion_count_witness :
  ∃ out,
    expand_optionals Parser.parse
      (One (ItemRule (mkRule "x" [NamedTerm "A" "A";
                                  OptionalGroup [NamedTerm "B" "B"];
                                  OptionalGroup [NamedTerm "C" "C"]])))
      true true = Ok out
    ∧ NoDup out
    ∧ length out = 2 ^ 2.
Proof.
  apply (proj1 (expansion_count Parser.parse)
           (mkRule "x" [NamedTerm "A" "A"; OptionalGroup [NamedTerm "B" "B"];
                        OptionalGroup [NamedTerm "C" "C"]]) true true).
  - reflexivity.
  - apply (bool_decide_unpack _). vm_compute. exact I.
Defined.

Lemma expand_no_optionals_witness :
  Rule_expand_optionals (mkRule "x" [Term "A"; NamedTerm "b" "B"])
    = [mkRule "x" [Term "A"; NamedTerm "b" "B"]]
  ∧ expand_optionals Parser.parse
      (One (ItemRule (mkRule "x" [Term "A"; NamedTerm "b" "B"]))) false true
    = Ok [Flattened (mkRule "x" [Term "A"; NamedTerm "b" "B"])]
  ∧ expand_optionals Parser.parse
      (One (ItemRule (mkRule "x" [Term "A"; NamedTerm "b" "B"]))) true true
    = Ok [Formatted "x : A B"].
Proof.
  apply (expand_no_optionals Parser.parse
           (mkRule "x" [Term "A"; NamedTerm "b" "B"]) true).
  reflexivity.
Defined.

(** One Rule with two placements of a group that resolve to the same
    terms: [x: A (B)? (B)?] has the entry [x : A B] once. *)
Lemma expand_optionals_dedup_per_rule_witness :
  expand_optionals Parser.parse (One (ItemStr "x: A (B)? (B)?")) true true
  = Ok (concat (process_rule true true
                  <$> [mkRule "x" [NamedTerm "A" "A";
                                   OptionalGroup [NamedTerm "B" "B"];
                                   OptionalGroup [NamedTerm "B" "B"]]]))
  ∧ ∀ rule,
      rule ∈ [mkRule "x" [NamedTerm "A" "A";
                          OptionalGroup [NamedTerm "B" "B"];
                          OptionalGroup [NamedTerm "B" "B"]]] →
      NoDup (process_rule true true rule)
      ∧ ∀ e, e ∈ process_rule true true rule
             ↔ ∃ v, v ∈ Rule_expand_optionals rule
                    ∧ e = resolution true true v.
Proof.
  apply (expand_optionals_dedup_per_rule Parser.parse
           (One (ItemStr "x: A (B)? (B)?")) true true).
  reflexivity.
Defined.

Example expand_optionals_same_resolution :
  expand_optionals Parser.parse (One (ItemStr "x: A (B)? (B)?")) true true
  = Ok [Formatted "x : A"; Formatted "x : A B"; Formatted "x : A B B"].
Proof. reflexivity. Qed.

(** A wrapper for [x: a=A B c=C] on the stack [[0; 10; 20; 30]]: the
    function gets [a = 10] and [c = 30], and its result goes to slot 0. *)
Lemma wrapper_positional_witness :
  ∃ (w : wrapped nat) (kwargs : gmap string nat),
    create_wrapper Parser.parse
      (One (ItemRule (mkRule "x" [NamedTerm "a" "A"; Term "B";
                                  NamedTerm "c" "C"])))
      (λ kw : gmap string nat,
         Ok (default 0 (kw !! "a") + default 0 (kw !! "c"))) = Ok w
    ∧ call w [0; 10; 20; 30]
      = (v ← Ok (default 0 (kwargs !! "a") + default 0 (kwargs !! "c"));
         mret (<[0 := v]> [0; 10; 20; 30]))
    ∧ (∀ i n s,
         [NamedTerm "a" "A"; Term "B"; NamedTerm "c" "C"] !! i
           = Some (NamedTerm n s) →
         kwargs !! n = [0; 10; 20; 30] !! (i + 1))
    ∧ (∀ n, is_Some (kwargs !! n) →
            ∃ i s, [NamedTerm "a" "A"; Term "B"; NamedTerm "c" "C"] !! i
                   = Some (NamedTerm n s)).
Proof.
  apply (wrapper_positional Parser.parse
           (mkRule "x" [NamedTerm "a" "A"; Term "B"; NamedTerm "c" "C"])
           (λ kw : gmap string nat,
              Ok (default 0 (kw !! "a") + default 0 (kw !! "c")))
           [0; 10; 20; 30]).
  - reflexivity.
  - apply (bool_decide_unpack _). vm_compute. exact I.
  - simpl. lia.
Defined.

Example wrapper_call :
  (w ← create_wrapper Parser.parse (One (ItemStr "x: a=A B c=C"))
         (λ kw : gmap string nat,
            Ok (default 0 (kw !! "a") + default 0 (kw !! "c")));
   call w [0; 10; 20; 30]) = Ok [40; 10; 20; 30].
Proof. vm_compute. reflexivity. Qed.

(** When two terms have one name, as the two [SYM] of the rule of the
    module's notes have, the slot of the later one is passed. *)
Example wrapper_same_name :
  (w ← create_wrapper Parser.parse (One (ItemStr "production: SYM another"))
         (λ kw : gmap string nat, Ok (default 0 (kw !! "SYM")));
   call w [0; 10; 20]) = Ok [10; 10; 20]
  ∧ (w ← create_wrapper Parser.parse
           (One (ItemRule (mkRule "production"
                             [NamedTerm "SYM" "SYM"; NamedTerm "another" "another";
                              NamedTerm "SYM" "SYM"; NamedTerm "another" "another"])))
           (λ kw : gmap string nat, Ok (default 0 (kw !! "SYM")));
     call w [0; 10; 20; 30; 40]) = Ok [30; 10; 20; 30; 40].
Proof. split; vm_compute; reflexivity. Qed.

(** A stack that is too short for the rule raises [IndexError]. *)
Example wrapper_short_stack :
  (w ← create_wrapper Parser.parse (One (ItemStr "x: a=A B c=C"))
         (λ kw : gmap string nat, Ok 0);
   call w [0; 10; 20]) = Raise IndexError.
Proof. vm_compute. reflexivity. Qed.


(** The rule of the module's notes has two entries. *)
Example expand_optionals_notes :
  expand_optionals Parser.parse
    (One (ItemStr "production: SYM another (SYM another)?")) true true
  = Ok [Formatted "production : SYM another";
        Formatted "production : SYM another SYM another"].
Proof. vm_compute. reflexivity. Qed.

(** A malformed line fails the text as a whole, rules before it
    included. *)
Example parse_no_partial_result :
  Parser.parse "x: A (B)?
y: A (B
z: C" = Raise (ParseError "y: A (B")
  ∧ Parser.parse "x: A (B)" = Raise (ParseError "x: A (B)")
  ∧ Parser.parse "x A" = Raise (ParseError "x A").
Proof. repeat split. Qed.


(** ** Further properties of [easyply/__init__.py] *)

(** *** Rulesets *)

Section Rulesets.

Variable _parse : string → result (list Rule).

(** A list of Rules is coerced without the parser. *)
Lemma coerce_rules (rs : list Rule) :
  _coerce_to_ruleset _parse (Many (ItemRule <$> rs)) = Ok rs.
Proof.
  unfold _coerce_to_ruleset. simpl.
  rewrite (mapM_result_Ok _ (λ x, match x with
                                  | ItemRule r => [r]
                                  | ItemStr _ => []
                                  end)).
  - simpl. apply (f_equal Ok). induction rs as [|r rs IH]; [done|].
    exact (f_equal (cons r) IH).
  - intros x (r & -> & _)%list_elem_of_fmap. done.
Qed.

Lemma expand_optionals_coerced (arg : ruleset_arg) (rs : list Rule)
    (format pure_ply : bool) :
  _coerce_to_ruleset _parse arg = Ok rs →
  expand_optionals _parse arg format pure_ply
  = Ok (concat (process_rule format pure_ply <$> rs)).
Proof. intros H. unfold expand_optionals. by rewrite H. Qed.

Lemma coerce_to_single_rule_Ok (arg : ruleset_arg) (r : Rule) :
  _coerce_to_single_rule _parse arg = Ok r
  ↔ _coerce_to_ruleset _parse arg = Ok [r].
Proof.
  unfold _coerce_to_single_rule.
  destruct (_coerce_to_ruleset _parse arg) as [rs|e]; simpl; [|done].
  destruct (decide (length rs ≠ 1)) as [Hlen|Hlen].
  - split; [done|]. intros [= ->]. by destruct Hlen.
  - destruct rs as [|r' [|r'' rs]]; simpl in *; try lia.
    split; by intros [= ->].
Qed.

(** X1: the coercion of a list is the concatenation of the coercions of
    its parts, the first error winning, and a single element is coerced
    as the list of that element. *)
Theorem coerce_to_ruleset_distributes (x : item) (xs ys : list item) :
  _coerce_to_ruleset _parse (One x) = _coerce_to_ruleset _parse (Many [x])
  ∧ _coerce_to_ruleset _parse (Many (xs ++ ys))
    = (a ← _coerce_to_ruleset _parse (Many xs);
       b ← _coerce_to_ruleset _parse (Many ys); mret (a ++ b)).
Proof. split; [reflexivity|apply coerce_to_ruleset_app]. Qed.

(** X2: when the parser rejects a string of the argument, every function
    that takes a ruleset raises an error of the parser on a string of the
    argument: no Rule, entry or wrapper is returned, and the arity of the
    ruleset is not looked at. *)
Theorem ruleset_parse_error (arg : ruleset_arg) (s : string) :
  ItemStr s ∈ as_sequence arg → raises (_parse s) →
  ∃ s' e,
    ItemStr s' ∈ as_sequence arg ∧ _parse s' = Raise e
    ∧ _coerce_to_ruleset _parse arg = Raise e
    ∧ _coerce_to_single_rule _parse arg = Raise e
    ∧ (∀ format pure_ply,
         expand_optionals _parse arg format pure_ply = Raise e)
    ∧ (∀ V (func : gmap string V → result V),
         create_wrapper _parse arg func = Raise e).
Proof.
  intros Hin Hr.
  destruct (coerce_to_ruleset_Raise _parse arg s Hin Hr)
    as (s' & e & Hin' & Hs' & Hc).
  exists s', e. repeat split; try done.
  - by apply coerce_to_single_rule_Raise.
  - intros format pure_ply. unfold expand_optionals. by rewrite Hc.
  - intros V func. unfold create_wrapper.
    by rewrite (coerce_to_single_rule_Raise _parse arg e Hc).
Qed.

(** X3: a list of Rules is a ruleset as it is, whatever the parser: the
    coercion returns the Rules, and [expand_optionals] the entries of each
    Rule in turn. *)
Theorem ruleset_of_rules (rs : list Rule) (format pure_ply : bool) :
  _coerce_to_ruleset _parse (Many (ItemRule <$> rs)) = Ok rs
  ∧ expand_optionals _parse (Many (ItemRule <$> rs)) format pure_ply
    = Ok (concat (process_rule format pure_ply <$> rs)).
Proof.
  split; [apply coerce_rules|].
  apply expand_optionals_coerced, coerce_rules.
Qed.

(** X4: the coercion to a single rule returns a Rule exactly when the
    coercion to a ruleset returns the list of that one Rule. *)
Theorem coerce_to_single_rule_iff (arg : ruleset_arg) (r : Rule) :
  _coerce_to_single_rule _parse arg = Ok r
  ↔ _coerce_to_ruleset _parse arg = Ok [r].
Proof. apply coerce_to_single_rule_Ok. Qed.

(** X5: the entries for a list of rules are the entries for its first part
    followed by those for its second part. *)
Theorem expand_optionals_app (xs ys : list item) (format pure_ply : bool) :
  expand_optionals _parse (Many (xs ++ ys)) format pure_ply
  = (a ← expand_optionals _parse (Many xs) format pure_ply;
     b ← expand_optionals _parse (Many ys) format pure_ply;
     mret (a ++ b)).
Proof.
  unfold expand_optionals. rewrite coerce_to_ruleset_app.
  destruct (_coerce_to_ruleset _parse (Many xs)) as [a|e]; simpl; [|done].
  destruct (_coerce_to_ruleset _parse (Many ys)) as [b|e]; simpl; [|done].
  by rewrite fmap_app, concat_app.
Qed.

End Rulesets.

Lemma ruleset_parse_error_witness :
  ∃ s' e,
    ItemStr s' ∈ as_sequence (Many [ItemStr "x: A"; ItemStr "y: (B"])
    ∧ Parser.parse s' = Raise e
    ∧ _coerce_to_ruleset Parser.parse
        (Many [ItemStr "x: A"; ItemStr "y: (B"]) = Raise e
    ∧ _coerce_to_single_rule Parser.parse
        (Many [ItemStr "x: A"; ItemStr "y: (B"]) = Raise e
    ∧ (∀ format pure_ply,
         expand_optionals Parser.parse
           (Many [ItemStr "x: A"; ItemStr "y: (B"]) format pure_ply = Raise e)
    ∧ (∀ V (func : gmap string V → result V),
         create_wrapper Parser.parse
           (Many [ItemStr "x: A"; ItemStr "y: (B"]) func = Raise e).
Proof.
  apply (ruleset_parse_error Parser.parse
           (Many [ItemStr "x: A"; ItemStr "y: (B"]) "y: (B").
  - simpl. right. by left.
  - vm_compute. exact I.
Defined.

(** *** Docstrings *)

Lemma lstrip_all_whitespace (s : string) :
  all_whitespace s = true → lstrip s = "".
Proof.
  induction s as [|a s IH]; [done|]. simpl.
  intros [Ha Hs]%andb_true_iff. rewrite Ha. by apply IH.
Qed.

Lemma lstrip_app_whitespace (pre s : string) :
  all_whitespace pre = true → lstrip (pre +:+ s) = lstrip s.
Proof.
  induction pre as [|a pre IH]; [done|].
  intros [Ha Hp]%andb_true_iff. rewrite app_cons_string. simpl.
  rewrite Ha. by apply IH.
Qed.

Lemma lstrip_id (s : string) :
  starts_with_whitespace s = false → lstrip s = s.
Proof. destruct s as [|a s]; [done|]. simpl. by intros ->. Qed.

Lemma rstrip_all_whitespace (s : string) :
  all_whitespace s = true → rstrip s = "".
Proof.
  induction s as [|a s IH]; [done|]. simpl.
  intros [Ha Hs]%andb_true_iff. by rewrite IH, Ha.
Qed.

Lemma rstrip_cons_ne (a : ascii) (s : string) :
  rstrip s ≠ "" → rstrip (String a s) = String a (rstrip s).
Proof. intros Hne. simpl. by destruct (rstrip s). Qed.

Lemma rstrip_app_whitespace (s post : string) :
  s ≠ "" → ends_with_whitespace s = false →
  all_whitespace post = true → rstrip (s +:+ post) = s.
Proof.
  intros Hne Hend Hpost. induction s as [|a s IH]; [done|].
  rewrite app_cons_string. destruct s as [|b s].
  - rewrite app_nil_string. simpl in *.
    by rewrite rstrip_all_whitespace, Hend.
  - assert (rstrip (String b s +:+ post) = String b s) as Hr
      by by apply IH.
    rewrite rstrip_cons_ne; by rewrite Hr.
Qed.

Lemma strip_surrounded (pre d post : string) :
  d ≠ "" →
  starts_with_whitespace d = false → ends_with_whitespace d = false →
  all_whitespace pre = true → all_whitespace post = true →
  strip (pre +:+ d +:+ post) = d.
Proof.
  intros Hne Hstart Hend Hpre Hpost. unfold strip.
  rewrite lstrip_app_whitespace by done.
  rewrite lstrip_id.
  - by apply rstrip_app_whitespace.
  - destruct d as [|a d]; [done|]. by rewrite app_cons_string.
Qed.

Section Docstrings.

Variable _parse : string → result (list Rule).

(** X6: a docstring of white space only is not a missing docstring:
    [parse] gives the parser the empty string. *)
Theorem parse_blank_docstring (d : string) (fname : option string) :
  d ≠ "" → all_whitespace d = true →
  parse _parse (Some d) fname = _parse "".
Proof.
  intros Hne Hws. unfold parse.
  destruct d as [|a d]; [done|]. simpl falsy. cbv iota.
  unfold strip. simpl default.
  by rewrite (lstrip_all_whitespace _ Hws).
Qed.

(** X7: white space around a definition does not count: [parse] gives the
    parser the definition without it. *)
Theorem parse_surrounding_whitespace (pre d post : string)
    (fname : option string) :
  d ≠ "" →
  starts_with_whitespace d = false → ends_with_whitespace d = false →
  all_whitespace pre = true → all_whitespace post = true →
  parse _parse (Some (pre +:+ d +:+ post)) fname = _parse d.
Proof.
  intros Hne Hstart Hend Hpre Hpost. unfold parse.
  destruct (pre +:+ d +:+ post) as [|a s] eqn:Heq.
  - destruct pre; [|by rewrite app_cons_string in Heq].
    rewrite app_nil_string in Heq.
    destruct d; [done|by rewrite app_cons_string in Heq].
  - simpl. rewrite <- Heq. by rewrite strip_surrounded.
Qed.

End Docstrings.

(** The no-break space (160) and the next-line character (133) are
    stripped as the blank is. *)
Example parse_strips_latin1_space :
  parse Parser.parse (Some (String "160" "x: A" +:+ String "133" "")) None
  = Parser.parse "x: A"
  ∧ parse Parser.parse (Some (String "160" "")) None = Parser.parse "".
Proof. split; reflexivity. Qed.

Lemma parse_blank_docstring_witness :
  parse Parser.parse (Some "  
 ") (Some "px_f") = Parser.parse "".
Proof. apply parse_blank_docstring; [discriminate|reflexivity]. Defined.

Lemma parse_surrounding_whitespace_witness :
  parse Parser.parse (Some ("
    " +:+ "x: A (B)?" +:+ "
  ")) None = Parser.parse "x: A (B)?".
Proof.
  apply parse_surrounding_whitespace;
    [discriminate|reflexivity|reflexivity|reflexivity|reflexivity].
Defined.

(** *** The wrapper *)

Section WrapperCalls.

Context {V : Type}.
Implicit Types (p : list V) (kwargs : gmap string V).

(** What the loop of the wrapper leaves in [kwargs]: for each name, the
    slot of the last term that has it. *)
Lemma extract_kwargs_last (ts : list term) (i : nat) p kwargs kw :
  extract_kwargs i ts p kwargs = Ok kw →
  (∀ j n s, ts !! j = Some (NamedTerm n s) →
            (∀ j' s', j < j' → ts !! j' ≠ Some (NamedTerm n s')) →
            kw !! n = p !! (i + j + 1))
  ∧ (∀ n, n ∉ names ts → kw !! n = kwargs !! n)
  ∧ dom kw = dom kwargs ∪ list_to_set (names ts).
Proof.
  revert i kwargs.
  induction ts as [|t ts IH]; intros i kwargs Hex.
  - simpl in Hex. injection Hex as <-. split; [|split; [done|]].
    + intros j n s Hj. by rewrite lookup_nil in Hj.
    + simpl. by rewrite (right_id_L ∅ (∪)).
  - assert (∀ k0, extract_kwargs (S i) ts p k0 = Ok kw →
              (∀ j n s, ts !! j = Some (NamedTerm n s) →
                        (∀ j' s', S j < j' →
                                  (t :: ts) !! j' ≠ Some (NamedTerm n s')) →
                        kw !! n = p !! (i + S j + 1))
              ∧ (∀ n, n ∉ names ts → kw !! n = k0 !! n)
              ∧ dom kw = dom k0 ∪ list_to_set (names ts)) as IH'.
    { intros k0 H0. destruct (IH (S i) k0 H0) as (Ha & Hb & Hc).
      split; [|done]. intros j n s Hj Hlast.
      rewrite (Ha j n s Hj).
      - f_equal. lia.
      - intros j' s' Hlt. apply (Hlast (S j') s'). lia. }
    destruct t as [s0|n0 s0|g]; simpl in Hex.
    + destruct (IH' kwargs Hex) as (Ha & Hb & Hc). split; [|done].
      intros [|j] n s Hj Hlast; [discriminate|]. by apply (Ha j n s).
    + destruct (p !! (i + 1)) as [v|] eqn:Hv; [|discriminate].
      destruct (IH' _ Hex) as (Ha & Hb & Hc). split; [|split].
      * intros [|j] n s Hj Hlast; [|by apply (Ha j n s)].
        injection Hj as <- <-.
        assert (n0 ∉ names ts) as Hn0.
        { intros (j' & s' & Hj')%elem_of_names.
          apply (Hlast (S j') s'); [lia|done]. }
        rewrite (Hb n0 Hn0), lookup_insert_eq, <- Hv. f_equal. lia.
      * intros n Hn. rewrite names_cons_named in Hn.
        apply not_elem_of_cons in Hn as [Hne Hn].
        rewrite (Hb n Hn). by apply lookup_insert_ne.
      * rewrite Hc, dom_insert_L, names_cons_named. simpl.
        by rewrite (comm_L (∪) {[n0]}), <- (assoc_L (∪)).
    + destruct (IH' kwargs Hex) as (Ha & Hb & Hc). split; [|done].
      intros [|j] n s Hj Hlast; [discriminate|]. by apply (Ha j n s).
Qed.

(** A named term without its slot stops the loop with [IndexError]. *)
Lemma extract_kwargs_IndexError (ts : list term) (i j : nat) (n s : string)
    p kwargs :
  ts !! j = Some (NamedTerm n s) → length p ≤ i + j + 1 →
  extract_kwargs i ts p kwargs = Raise IndexError.
Proof.
  revert i j kwargs.
  induction ts as [|t ts IH]; intros i j kwargs Hj Hlen; [done|].
  destruct j as [|j].
  - injection Hj as ->. simpl.
    rewrite (lookup_ge_None_2 p (i + 1)) by lia. done.
  - simpl in Hj. destruct t as [s0|n0 s0|g]; simpl.
    + apply (IH (S i) j); [done|lia].
    + destruct (p !! (i + 1)); [|done]. apply (IH (S i) j); [done|lia].
    + apply (IH (S i) j); [done|lia].
Qed.

(** X8: when the wrapper returns, the function was called once, with
    keyword arguments whose names are the names of the terms of the rule
    and whose values are, for each name, the slot [p[j + 1]] of the last
    term at a position [j] that has the name; the function's result is in
    slot 0 and the stack is otherwise as it was. *)
Theorem wrapper_call_result (rule : Rule) (func : gmap string V → result V)
    (p p' : list V) :
  wrapper rule func p = Ok p' →
  ∃ kwargs v,
    func kwargs = Ok v
    ∧ p' = <[0 := v]> p
    ∧ p' !! 0 = Some v
    ∧ length p' = length p
    ∧ (∀ i, 0 < i → p' !! i = p !! i)
    ∧ dom kwargs = list_to_set (names (terms rule))
    ∧ (∀ j n s, terms rule !! j = Some (NamedTerm n s) →
                (∀ j' s', j < j' → terms rule !! j' ≠ Some (NamedTerm n s')) →
                kwargs !! n = p !! (j + 1)).
Proof.
  unfold wrapper. intros Hw.
  destruct (extract_kwargs 0 (terms rule) p ∅) as [kw|] eqn:Hkw;
    [|discriminate].
  simpl in Hw. destruct (func kw) as [v|] eqn:Hv; [|discriminate].
  simpl in Hw. destruct p as [|x p]; [discriminate|].
  injection Hw as <-.
  destruct (extract_kwargs_last _ _ _ _ _ Hkw) as (Ha & Hb & Hc).
  exists kw, v. repeat split; try done.
  - intros [|i] Hi; [lia|done].
  - rewrite Hc, dom_empty_L. apply (left_id_L ∅ (∪)).
Qed.

(** X9: a stack without the slot of a named term makes the wrapper raise
    [IndexError], whatever the function is; and on the empty stack the
    wrapper always raises, there being no slot for the result. *)
Theorem wrapper_index_error (rule : Rule) (func : gmap string V → result V) :
  (∀ p j n s,
     terms rule !! j = Some (NamedTerm n s) → length p ≤ j + 1 →
     wrapper rule func p = Raise IndexError)
  ∧ raises (wrapper rule func []).
Proof.
  split.
  - intros p j n s Hj Hlen. unfold wrapper.
    by rewrite (extract_kwargs_IndexError _ 0 j n s p ∅ Hj) by (simpl; lia).
  - unfold wrapper.
    destruct (extract_kwargs 0 (terms rule) [] ∅) as [kw|]; [|done].
    simpl. by destruct (func kw).
Qed.

End WrapperCalls.

Lemma wrapper_call_result_witness :
  ∃ (kwargs : gmap string nat) (v : nat),
    Ok (default 0 (kwargs !! "SYM") + default 0 (kwargs !! "other")) = Ok v
    ∧ [30; 10; 20; 30; 40] = <[0 := v]> [0; 10; 20; 30; 40]
    ∧ [30; 10; 20; 30; 40] !! 0 = Some v
    ∧ length [30; 10; 20; 30; 40] = length [0; 10; 20; 30; 40]
    ∧ (∀ i, 0 < i → [30; 10; 20; 30; 40] !! i = [0; 10; 20; 30; 40] !! i)
    ∧ dom kwargs
      = list_to_set (names [NamedTerm "SYM" "SYM"; Term "B";
                            NamedTerm "SYM" "SYM"; OptionalGroup []])
    ∧ (∀ j n s,
         [NamedTerm "SYM" "SYM"; Term "B"; NamedTerm "SYM" "SYM";
          OptionalGroup []] !! j = Some (NamedTerm n s) →
         (∀ j' s', j < j' →
            [NamedTerm "SYM" "SYM"; Term "B"; NamedTerm "SYM" "SYM";
             OptionalGroup []] !! j' ≠ Some (NamedTerm n s')) →
         kwargs !! n = [0; 10; 20; 30; 40] !! (j + 1)).
Proof.
  apply (wrapper_call_result
           (mkRule "x" [NamedTerm "SYM" "SYM"; Term "B";
                        NamedTerm "SYM" "SYM"; OptionalGroup []])
           (λ kw : gmap string nat,
              Ok (default 0 (kw !! "SYM") + default 0 (kw !! "other")))
           [0; 10; 20; 30; 40] [30; 10; 20; 30; 40]).
  vm_compute. reflexivity.
Defined.

Lemma wrapper_index_error_witness :
  wrapper (mkRule "x" [Term "A"; NamedTerm "b" "B"])
    (λ kw : gmap string nat, Ok 0) [0; 10] = Raise IndexError.
Proof.
  apply (proj1 (wrapper_index_error
                  (mkRule "x" [Term "A"; NamedTerm "b" "B"])
                  (λ kw : gmap string nat, Ok 0)) [0; 10] 1 "b" "B").
  - reflexivity.
  - simpl. lia.
Defined.

Section WrapperPositions.

Variable _parse : string → result (list Rule).
Context {V : Type}.

(** C6, as amended: for a flattened Rule and a parse stack with a slot for
    the result and one for each term, the wrapper built by
    [create_wrapper] calls the function with, for each named term at
    position [i] that no later term shares its name with, the slot
    [p[i + 1]] under the name of the term; a name that several terms have
    holds the slot of the last of them; with names that are all different
    every named term has its slot passed; nothing else is passed, and the
    result of the function goes to slot 0, the other slots staying as they
    are. *)
Theorem wrapper_positional_last (r : Rule)
    (func : gmap string V → result V) (p : list V) :
  is_flat r = true →
  length (terms r) < length p →
  ∃ w kwargs,
    create_wrapper _parse (One (ItemRule r)) func = Ok w
    ∧ call w p = (v ← func kwargs; mret (<[0 := v]> p))
    ∧ (∀ i n s, terms r !! i = Some (NamedTerm n s) →
                (∀ j s', i < j → terms r !! j ≠ Some (NamedTerm n s')) →
                kwargs !! n = p !! (i + 1))
    ∧ (NoDup (names (terms r)) →
       ∀ i n s, terms r !! i = Some (NamedTerm n s) →
                kwargs !! n = p !! (i + 1))
    ∧ (∀ n, is_Some (kwargs !! n) →
            ∃ i s, terms r !! i = Some (NamedTerm n s)).
Proof.
  intros Hflat Hlen.
  destruct (extract_kwargs_Ok (terms r) 0 p ∅) as [kw Hkw]; [simpl; lia|].
  destruct (extract_kwargs_last _ _ _ _ _ Hkw) as (Ha & Hb & Hc).
  assert (flatten r = r) as Hfl by by apply flatten_flat.
  exists (wrapper_of r func), kw. split; [reflexivity|].
  split; [|split; [|split]].
  - simpl. rewrite Hfl. unfold wrapper. rewrite Hkw. simpl.
    destruct (func kw) as [v|e]; simpl; [|done].
    destruct p; [simpl in Hlen; lia|done].
  - intros i n s Hi Hlast. by rewrite (Ha i n s Hi Hlast).
  - intros Hnd i n s Hi.
    destruct (extract_kwargs_lookup _ _ _ _ _ Hkw Hnd) as [Ha' _].
    by rewrite (Ha' i n s Hi).
  - intros n Hn. apply elem_of_names.
    destruct (decide (n ∈ names (terms r))) as [|Hnot]; [done|].
    rewrite (Hb n Hnot), lookup_empty in Hn. by destruct Hn.
Qed.

End WrapperPositions.

(** The rule [e: expr PLUS expr] on the stack [[0; 1; 2; 3]]: the function
    gets [expr = 3], the slot of the second [expr], and [PLUS = 2]; no
    keyword arguments have [expr] from slot 1 as well as from slot 3. *)
Lemma wrapper_repeated_name :
  ∃ w : wrapped nat,
    create_wrapper Parser.parse (One (ItemStr "e: expr PLUS expr"))
      (λ kw, Ok (default 0 (kw !! "expr"))) = Ok w
    ∧ is_flat (mkRule "e" [NamedTerm "expr" "expr"; NamedTerm "PLUS" "PLUS";
                           NamedTerm "expr" "expr"]) = true
    ∧ _coerce_to_single_rule Parser.parse (One (ItemStr "e: expr PLUS expr"))
      = Ok (mkRule "e" [NamedTerm "expr" "expr"; NamedTerm "PLUS" "PLUS";
                        NamedTerm "expr" "expr"])
    ∧ call w [0; 1; 2; 3] = Ok [3; 1; 2; 3]
    ∧ ¬ ∃ kwargs : gmap string nat,
          ∀ i n s,
            [NamedTerm "expr" "expr"; NamedTerm "PLUS" "PLUS";
             NamedTerm "expr" "expr"] !! i = Some (NamedTerm n s) →
            kwargs !! n = [0; 1; 2; 3] !! (i + 1).
Proof.
  eexists. split; [reflexivity|]. split; [reflexivity|].
  split; [reflexivity|]. split; [vm_compute; reflexivity|].
  intros [kwargs H].
  pose proof (H 0 "expr" "expr" eq_refl) as H0.
  pose proof (H 2 "expr" "expr" eq_refl) as H2.
  simpl in H0, H2. congruence.
Qed.

Lemma wrapper_positional_last_witness :
  ∃ (w : wrapped nat) (kwargs : gmap string nat),
    create_wrapper Parser.parse
      (One (ItemRule (mkRule "e" [NamedTerm "expr" "expr";
                                  NamedTerm "PLUS" "PLUS";
                                  NamedTerm "expr" "expr"])))
      (λ kw : gmap string nat, Ok (default 0 (kw !! "expr"))) = Ok w
    ∧ call w [0; 1; 2; 3]
      = (v ← Ok (default 0 (kwargs !! "expr")); mret (<[0 := v]> [0; 1; 2; 3]))
    ∧ (∀ i n s,
         [NamedTerm "expr" "expr"; NamedTerm "PLUS" "PLUS";
          NamedTerm "expr" "expr"] !! i = Some (NamedTerm n s) →
         (∀ j s', i < j →
            [NamedTerm "expr" "expr"; NamedTerm "PLUS" "PLUS";
             NamedTerm "expr" "expr"] !! j ≠ Some (NamedTerm n s')) →
         kwargs !! n = [0; 1; 2; 3] !! (i + 1))
    ∧ (NoDup (names [NamedTerm "expr" "expr"; NamedTerm "PLUS" "PLUS";
                     NamedTerm "expr" "expr"]) →
       ∀ i n s,
         [NamedTerm "expr" "expr"; NamedTerm "PLUS" "PLUS";
          NamedTerm "expr" "expr"] !! i = Some (NamedTerm n s) →
         kwargs !! n = [0; 1; 2; 3] !! (i + 1))
    ∧ (∀ n, is_Some (kwargs !! n) →
            ∃ i s, [NamedTerm "expr" "expr"; NamedTerm "PLUS" "PLUS";
                    NamedTerm "expr" "expr"] !! i = Some (NamedTerm n s)).
Proof.
  apply (wrapper_positional_last Parser.parse
           (mkRule "e" [NamedTerm "expr" "expr"; NamedTerm "PLUS" "PLUS";
                        NamedTerm "expr" "expr"])
           (λ kw : gmap string nat, Ok (default 0 (kw !! "expr")))
           [0; 1; 2; 3]).
  - reflexivity.
  - simpl. lia.
Defined.

(** *** [process_function] *)

(** Different counts give different names. *)
Lemma wrapper_name_inj (fname : string) (i j : nat) :
  wrapper_name fname i = wrapper_name fname j → i = j.
Proof.
  intros Heq. unfold wrapper_name in Heq.
  do 3 apply (inj (String.app _)) in Heq. by apply (inj pretty).
Qed.

(** A prefix that parts from ["p_"] is a prefix of no name that
    [process_function] gives. *)
Lemma prefix_wrapper_name (prefix fname : string) (i : nat) :
  String.prefix prefix "p_" = false → String.prefix "p_" prefix = false →
  String.prefix prefix (wrapper_name fname i) = false.
Proof.
  unfold wrapper_name. intros H1 H2.
  rewrite !app_cons_string, app_nil_string.
  destruct prefix as [|a [|b q]]; simpl in *; [done| |].
  - by destruct (ascii_dec a "p").
  - destruct (ascii_dec a "p") as [->|]; [|done].
    destruct (ascii_dec b "_") as [->|]; [|done].
    simpl in H2. by destruct q.
Qed.

Section ProcessFunctionProps.

Variable _parse : string → result (list Rule).
Context {V : Type}.

Lemma create_wrapper_rule (r : Rule) (func : gmap string V → result V) :
  create_wrapper _parse (One (ItemRule r)) func = Ok (wrapper_of r func).
Proof. reflexivity. Qed.

(** Without [format], the entries are flattened Rules. *)
Lemma expanded_flattened (rs : list Rule) (pure_ply : bool) :
  Forall (λ e, ∃ r, e = Flattened r)
    (concat (process_rule false pure_ply <$> rs)).
Proof.
  apply Forall_forall. intros e He.
  apply list_elem_of_In, in_concat in He as (l & Hl & He).
  apply list_elem_of_In, list_elem_of_fmap in Hl as (r & -> & _).
  apply list_elem_of_In in He.
  unfold process_rule in He. rewrite elem_of_remove_dups in He.
  apply list_elem_of_fmap in He as (v & -> & _). by eexists.
Qed.

Lemma install_wrappers_spec (func : pyfunc V) (expanded : list expansion)
    (i : nat) (ret : gmap string (wrapped V)) :
  Forall (λ e, ∃ r, e = Flattened r) expanded →
  ∃ ret',
    install_wrappers _parse func i expanded ret = Ok ret'
    ∧ (∀ j r, expanded !! j = Some (Flattened r) →
              ret' !! wrapper_name (fn_name func) (i + j)
              = Some (wrapper_of r (fn_call func)))
    ∧ (∀ k, (∀ j, j < length expanded →
                  k ≠ wrapper_name (fn_name func) (i + j)) →
            ret' !! k = ret !! k).
Proof.
  intros Hall. revert i ret.
  induction Hall as [|e expanded [r ->] _ IH]; intros i ret.
  - exists ret. split; [done|]. split; [|done].
    intros j r Hj. by rewrite lookup_nil in Hj.
  - simpl.
    destruct (IH (S i) (<[wrapper_name (fn_name func) i :=
                            wrapper_of r (fn_call func)]> ret))
      as (ret' & Hret & Ha & Hb).
    exists ret'. split; [done|]. split.
    + intros [|j] r' Hj.
      * injection Hj as <-. rewrite Hb.
        -- rewrite Nat.add_0_r. apply lookup_insert_eq.
        -- intros j _ Heq. apply wrapper_name_inj in Heq. lia.
      * replace (i + S j) with (S i + j) by lia. by apply Ha.
    + intros k Hk. rewrite Hb.
      * apply lookup_insert_ne. intros Heq.
        apply (Hk 0); [simpl; lia|]. by rewrite Nat.add_0_r.
      * intros j Hj. replace (S i + j) with (i + S j) by lia.
        apply Hk. simpl. lia.
Qed.

(** When [parse] returns, [process_function] does: a list of Rules is a
    ruleset of its own and each of its entries is one Rule. *)
Lemma process_function_Ok (func : pyfunc V) (rs : list Rule) :
  parse _parse (fn_doc func) (Some (fn_name func)) = Ok rs →
  ∃ ret,
    process_function _parse func = Ok ret
    ∧ (∀ i e, concat (process_rule false true <$> rs) !! i = Some e →
              ∃ r, e = Flattened r
                   ∧ ret !! wrapper_name (fn_name func) i
                     = Some (wrapper_of r (fn_call func)))
    ∧ (∀ k, is_Some (ret !! k) →
            ∃ i, i < length (concat (process_rule false true <$> rs))
                 ∧ k = wrapper_name (fn_name func) i).
Proof.
  intros Hp. unfold process_function. rewrite Hp. simpl.
  rewrite (expand_optionals_coerced _parse _ rs) by apply coerce_rules.
  simpl.
  pose proof (expanded_flattened rs true) as Hall.
  destruct (install_wrappers_spec func _ 0 ∅ Hall) as (ret & Hret & Ha & Hb).
  exists ret. split; [done|]. split.
  - intros i e Hi.
    rewrite Forall_forall in Hall.
    destruct (Hall e) as [r ->]; [by eapply list_elem_of_lookup_2|].
    exists r. split; [done|]. by apply (Ha i r).
  - intros k Hk.
    set (n := length (concat (process_rule false true <$> rs))) in *.
    destruct (decide (k ∈ wrapper_name (fn_name func) <$> seq 0 n))
      as [Hin|Hnot].
    + apply list_elem_of_fmap in Hin as (i & -> & Hi).
      apply elem_of_seq in Hi. exists i. split; [lia|done].
    + rewrite Hb, lookup_empty in Hk; [by destruct Hk|].
      intros j Hj ->. apply Hnot, list_elem_of_fmap_2, elem_of_seq. lia.
Qed.

(** X10: the only errors of [process_function] are those of [parse], the
    missing docstring and the errors of the parser: it raises exactly when
    [parse] does on the docstring, and the same error. *)
Theorem process_function_Raise_iff (func : pyfunc V) (e : exn) :
  process_function _parse func = Raise e
  ↔ parse _parse (fn_doc func) (Some (fn_name func)) = Raise e.
Proof.
  split.
  - intros Hpf.
    destruct (parse _parse (fn_doc func) (Some (fn_name func)))
      as [rs|e'] eqn:Hp.
    + destruct (process_function_Ok func rs Hp) as (ret & Hret & _).
      congruence.
    + unfold process_function in Hpf. rewrite Hp in Hpf.
      simpl in Hpf. by injection Hpf as ->.
  - intros Hp. unfold process_function. by rewrite Hp.
Qed.


(** X12: the names that [process_function] gives are not rules again:
    [get_rules] finds none of them for a prefix that parts from ["p_"], as
    the default ["px_"] does. *)
Theorem process_function_not_rules (func : pyfunc V)
    (ret : gmap string (wrapped V)) (prefix : string) :
  process_function _parse func = Ok ret →
  String.prefix prefix "p_" = false → String.prefix "p_" prefix = false →
  get_rules ret prefix = [].
Proof.
  intros Hpf H1 H2.
  destruct (parse _parse (fn_doc func) (Some (fn_name func)))
    as [rs|e] eqn:Hp.
  - destruct (process_function_Ok func rs Hp) as (ret' & Hret & _ & Hb).
    assert (ret' = ret) as -> by congruence.
    unfold get_rules. apply elem_of_nil_inv. intros [k w] Hkw.
    apply list_elem_of_filter in Hkw as [Hpre Hin]. simpl in Hpre.
    apply elem_of_map_to_list in Hin.
    destruct (Hb k) as (i & _ & ->); [by eexists|].
    by rewrite prefix_wrapper_name in Hpre.
  - unfold process_function in Hpf. rewrite Hp in Hpf. done.
Qed.

End ProcessFunctionProps.

(** A string of one rule is a single rule. *)
Lemma coerce_to_single_rule_iff_witness :
  _coerce_to_single_rule Parser.parse (One (ItemStr "x: A (B)?"))
  = Ok (mkRule "x" [NamedTerm "A" "A"; OptionalGroup [NamedTerm "B" "B"]]).
Proof.
  apply (proj2 (coerce_to_single_rule_iff Parser.parse
                  (One (ItemStr "x: A (B)?"))
                  (mkRule "x" [NamedTerm "A" "A";
                               OptionalGroup [NamedTerm "B" "B"]]))).
  reflexivity.
Defined.

(** A function without a docstring. *)
Lemma process_function_Raise_iff_witness :
  process_function Parser.parse
    (mkPyfunc "px_e" None (λ kw : gmap string nat, Ok 0))
  = Raise (NoDocstringError "Function px_e has no docstring").
Proof.
  apply (proj2 (process_function_Raise_iff Parser.parse
                  (mkPyfunc "px_e" None (λ kw : gmap string nat, Ok 0))
                  (NoDocstringError "Function px_e has no docstring"))).
  reflexivity.
Defined.


Lemma process_function_not_rules_witness :
  get_rules
    (<["p_px_e_1" :=
         wrapper_of (mkRule "e" [NamedTerm "a" "A"; NamedTerm "B" "B"])
           (λ kw : gmap string nat, Ok (default 0 (kw !! "a")))]>
       (<["p_px_e_0" :=
            wrapper_of (mkRule "e" [NamedTerm "a" "A"])
              (λ kw : gmap string nat, Ok (default 0 (kw !! "a")))]> ∅))
    "px_" = [].
Proof.
  apply (process_function_not_rules Parser.parse
           (mkPyfunc "px_e" (Some "  e: a=A (B)?
")
       (λ kw : gmap string nat, Ok (default 0 (kw !! "a"))))).
  - vm_compute. reflexivity.
  - reflexivity.
  - reflexivity.
Defined.

Example process_function_docs :
  (ret ← process_function Parser.parse
           (mkPyfunc "px_e" (Some "  e: a=A (B)?
")
       (λ kw : gmap string nat, Ok (default 0 (kw !! "a"))));
   mret (fmap (M:=gmap string) doc ret))
  = Ok (<["p_px_e_1" := "e : A B"]>
          (<["p_px_e_0" := "e : A"]> (∅ : gmap string string))).
Proof. vm_compute. reflexivity. Qed.
